(** * Univariate linear regression by batch gradient descent

    A shallow embedding of [linear-regression/univariate-linear-regression.c]:
    the growable integer vector ([IntVec], [vec_append]), the gradient of the
    mean-squared error ([gradient]), the two [fscanf] loops that read the sample
    pairs and the settings, and the training loop of [main] with its progress
    records and its exit paths.

    C [double] values are IEEE-754 binary64 numbers, modelled with the Standard
    Library's executable specification [SpecFloat] (round to nearest, ties to
    even; one NaN); every arithmetic operation of the source rounds once, as
    with SSE2 code on x86-64 (no fused multiply-add, no extended precision).
    C [int] values are integers in [-2^31, 2^31); [malloc] and [realloc] are
    taken to succeed.  Operations that ISO C leaves undefined and that a run can
    reach ([i % 0], [i++] at [INT_MAX], [fclose(NULL)]) end the run of the model
    with a status of their own. *)

From Stdlib Require Import ZArith Lia String Ascii Floats.SpecFloat.
From stdpp Require Import base list strings.

Local Open Scope Z_scope.

(** ** Machine numbers *)

Definition INT_MAX : Z := 2147483647.
Definition INT_MIN : Z := -2147483648.

Definition is_int (z : Z) : Prop := INT_MIN <= z <= INT_MAX.

(** Two's-complement reduction of an integer to the 32 bits of an [int]. *)
Definition wrap_int (z : Z) : Z := (z + 2 ^ 31) mod 2 ^ 32 - 2 ^ 31.

Definition double : Type := spec_float.

Module Double.

Definition prec : Z := 53.
Definition emax : Z := 1024.

Definition zero : double := S754_zero false.
Definition nan : double := S754_nan.

Definition add : double -> double -> double := SFadd prec emax.
Definition sub : double -> double -> double := SFsub prec emax.
Definition mul : double -> double -> double := SFmul prec emax.
Definition div : double -> double -> double := SFdiv prec emax.

(** The C comparison [a == b] on doubles. *)
Definition eqb : double -> double -> bool := SFeqb.

(** Conversion of an integer ([int] or [size_t]) to [double]. *)
Definition of_Z (z : Z) : double := binary_normalize prec emax z 0 false.

(** The integral part of a double, when it has one. *)
Definition trunc (d : double) : option Z :=
  match d with
  | S754_zero _ => Some 0
  | S754_finite s m e => Some (cond_Zopp s (Z.shiftl (Z.pos m) e))
  | S754_infinity _ | S754_nan => None
  end.

(** Conversion [double] to [int], as in [int n = atof(v)]: the fraction is
    discarded.  When the integral part does not fit an [int] (or the double is
    an infinity or a NaN) ISO C leaves the result undefined; the x86-64
    conversion instruction yields [INT_MIN] there, which is what is modelled. *)
Definition to_int (d : double) : Z :=
  match trunc d with
  | Some z => if (INT_MIN <=? z) && (z <=? INT_MAX) then z else INT_MIN
  | None => INT_MIN
  end.

End Double.

(** ** The dynamic vector of integers *)

Record IntVec : Type := mkIntVec {
  data : list Z;      (* the allocated array, [capacity] cells *)
  size : nat;         (* current number of elements *)
  capacity : nat      (* total allocated capacity *)
}.

Definition INIT_SIZE : nat := 256.

(** A cell of a freshly allocated block holds an indeterminate value; the
    program never reads one, and the model fills it with [0]. *)
Definition new_intvec : IntVec :=
  {| data := replicate INIT_SIZE 0; size := 0; capacity := INIT_SIZE |}.

Definition vec_append (vec : IntVec) (i : Z) : IntVec :=
  let vec :=
    if (capacity vec <=? size vec)%nat
    then {| data := data vec ++ replicate (capacity vec) 0;
            size := size vec;
            capacity := (capacity vec * 2)%nat |}
    else vec in
  {| data := <[size vec := i]> (data vec);
     size := S (size vec);
     capacity := capacity vec |}.

(** [vec->data[i]]; a read outside the allocated block is undefined in C and
    yields [0] here.  [gradient] reads [y->data[i]] for [i < x->size], which is
    inside the block whenever [y] holds as many elements as [x]. *)
Definition vec_get (vec : IntVec) (i : nat) : Z := data vec !!! i.

(** The series held by a vector: its first [size] cells, in insertion order. *)
Definition vec_elems (vec : IntVec) : list Z := take (size vec) (data vec).

Definition vec_of_list (l : list Z) : IntVec := foldl vec_append new_intvec l.

(** The representation invariant of [IntVec]. *)
Record vec_wf (vec : IntVec) : Prop := mk_vec_wf {
  wf_capacity : (0 < capacity vec)%nat;
  wf_size : (size vec <= capacity vec)%nat;
  wf_data : length (data vec) = capacity vec;
  wf_ints : Forall is_int (vec_elems vec)
}.

(** ** The gradient of the cost function *)

Record Weights : Type := mkWeights {
  w : double;   (* weight for the feature *)
  b : double    (* bias term *)
}.

(** One pass of the loop body of [gradient], at index [i], on the two
    accumulators [(dj_dw, dj_db)]. *)
Definition gradient_body (x y : IntVec) (ws : Weights)
    (acc : double * double) (i : nat) : double * double :=
  let f_wb := Double.add (Double.mul (w ws) (Double.of_Z (vec_get x i))) (b ws) in
  let dj_dw_i :=
    Double.mul (Double.sub f_wb (Double.of_Z (vec_get y i)))
               (Double.of_Z (vec_get x i)) in
  let dj_db_i := Double.sub f_wb (Double.of_Z (vec_get y i)) in
  (Double.add (fst acc) dj_dw_i, Double.add (snd acc) dj_db_i).

Definition gradient (x y : IntVec) (ws : Weights) : Weights :=
  let '(dj_dw, dj_db) :=
    foldl (gradient_body x y ws) (Double.zero, Double.zero) (seq 0 (size x)) in
  let dj_dw := Double.div dj_dw (Double.of_Z (Z.of_nat (size x))) in
  let dj_db := Double.div dj_db (Double.of_Z (Z.of_nat (size x))) in
  {| w := dj_dw; b := dj_db |}.

(** ** Text streams and the two [fscanf] formats

    An open file is the string of characters not yet consumed. *)

Definition isspace (c : ascii) : bool :=
  let n := nat_of_ascii c in
  ((n =? 32) || ((9 <=? n) && (n <=? 13)))%nat.

Definition digit_of (c : ascii) : option Z :=
  let n := Z.of_nat (nat_of_ascii c) in
  if (48 <=? n) && (n <=? 57) then Some (n - 48) else None.

Fixpoint skip_space (s : string) : string :=
  match s with
  | String c t => if isspace c then skip_space t else s
  | EmptyString => s
  end.

(** The longest run of decimal digits at the head of [s], accumulated on [acc]. *)
Fixpoint scan_digits (s : string) (acc : Z) : Z * string :=
  match s with
  | String c t =>
    match digit_of c with
    | Some d => scan_digits t (10 * acc + d)
    | None => (acc, s)
    end
  | EmptyString => (acc, s)
  end.

(** What glibc stores for a [%d] whose digits exceed the range of [int] (ISO C
    leaves it undefined): the value saturated to 64 bits, cut to 32. *)
Definition store_int (z : Z) : Z :=
  wrap_int (Z.max (- 2 ^ 63) (Z.min (2 ^ 63 - 1) z)).

(** The conversion [%d]: white space, an optional sign, at least one digit. *)
Definition scan_int (s : string) : option (Z * string) :=
  let s := skip_space s in
  let '(neg, s) :=
    match s with
    | String "-"%char t => (true, t)
    | String "+"%char t => (false, t)
    | _ => (false, s)
    end in
  match s with
  | String c t =>
    match digit_of c with
    | Some d =>
      let '(v, rest) := scan_digits t d in
      Some (store_int (if neg then - v else v), rest)
    | None => None
    end
  | EmptyString => None
  end.

(** [fscanf(f, "%d %d", &x_temp, &y_temp) == 2]: [Some (x_temp, y_temp, f')]
    when both conversions succeed, [None] for any other return value (the
    values stored by a call that returns 1 are never used). *)
Definition fscanf_d_d (f : string) : option (Z * Z * string) :=
  match scan_int f with
  | Some (x_temp, f) =>
    match scan_int (skip_space f) with
    | Some (y_temp, f) => Some (x_temp, y_temp, f)
    | None => None
    end
  | None => None
  end.

(** At most [width] characters up to the next white space. *)
Fixpoint scan_chars (width : nat) (s : string) : string * string :=
  match width, s with
  | S k, String c t =>
    if isspace c then (EmptyString, s)
    else let '(tok, rest) := scan_chars k t in (String c tok, rest)
  | _, _ => (EmptyString, s)
  end.

(** The conversion [%<width>s]: white space, then a non-empty word. *)
Definition scan_word (width : nat) (s : string) : option (string * string) :=
  match skip_space s with
  | EmptyString => None
  | s => Some (scan_chars width s)
  end.

(** The C string held by a character buffer: what precedes the first NUL. *)
Fixpoint c_str (buf : string) : string :=
  match buf with
  | String c t => if Ascii.eqb c zero then EmptyString else String c (c_str t)
  | EmptyString => EmptyString
  end.

(** [fscanf(f, "%10s %100s", key, value) == 2]. *)
Definition fscanf_s_s (f : string) : option (string * string * string) :=
  match scan_word 10 f with
  | Some (key, f) =>
    match scan_word 100 (skip_space f) with
    | Some (value, f) => Some (c_str key, c_str value, f)
    | None => None
    end
  | None => None
  end.

(** [strncpy(dst, src, n); dst[n] = '\0'] on C strings. *)
Fixpoint strncpy (n : nat) (src : string) : string :=
  match n, src with
  | S k, String c t => String c (strncpy k t)
  | _, _ => EmptyString
  end.

(** ** Reading the sample pairs *)

(** The loop [while (fscanf(...) == 2) { vec_append(&x, ...); vec_append(&y, ...); }].
    Every successful call consumes at least one character, so [String.length f]
    rounds are enough for the file [f] (lemma [read_pairs_fuel]). *)
Fixpoint read_pairs (fuel : nat) (f : string) (x y : IntVec) : IntVec * IntVec :=
  match fuel with
  | O => (x, y)
  | S fuel =>
    match fscanf_d_d f with
    | Some (x_temp, y_temp, f) =>
      read_pairs fuel f (vec_append x x_temp) (vec_append y y_temp)
    | None => (x, y)
    end
  end.

(** The records of the input stream: the pairs delivered by the successive
    successful calls of [fscanf], in order. *)
Fixpoint input_records (fuel : nat) (f : string) : list (Z * Z) :=
  match fuel with
  | O => []
  | S fuel =>
    match fscanf_d_d f with
    | Some (x_temp, y_temp, f) => (x_temp, y_temp) :: input_records fuel f
    | None => []
    end
  end.

(** ** Settings *)

Module Settings.

(** The locals of [main] that hold the settings. *)
Record t : Type := mk {
  w : double;          (* initial weight *)
  b : double;          (* initial bias *)
  alpha : double;      (* learning rate *)
  iterations : Z;      (* last iteration index (inclusive) *)
  every : Z;           (* iterations between two progress records *)
  output : string      (* output file name; empty for stdout *)
}.

(** [double w = 0.0, b = 0.0, alpha = 0.00001; int iterations = 100000,
    every = 100], and [output] the empty string.  The literal [0.00001]
    denotes the double nearest to 1/100000, which is the quotient of the two
    (exactly represented) integers. *)
Definition defaults : t :=
  {| w := Double.zero;
     b := Double.zero;
     alpha := Double.div (Double.of_Z 1) (Double.of_Z 100000);
     iterations := 100000;
     every := 100;
     output := EmptyString |}.

End Settings.

(** What the program writes to [stderr]. *)
Inductive Message : Type :=
  | Usage (prog : string)        (* the usage text *)
  | Perror (what : string)       (* [perror(what)] *)
  | UnknownKey (key : string).   (* ["Unknown key: %s\n"] *)

(** One line of progress, ["iteration: %d, w: %lf, b: %lf\n"]: the values handed
    to [fprintf]. *)
Record Progress : Type := mkProgress {
  iteration : Z;
  shown : Weights
}.

(** Operations whose behaviour ISO C leaves undefined and that [main] can reach. *)
Inductive Undefined : Type :=
  | ModuloByZero      (* [i % every] with [every == 0] *)
  | SignedOverflow    (* [i++] at [i == INT_MAX] *)
  | FcloseNull.       (* [fclose(NULL)] *)

(** How the training loop ends. *)
Inductive LoopEnd : Type :=
  | LoopDone                      (* [i <= iterations] turned false *)
  | LoopUndefined (u : Undefined)
  | LoopFuel.                     (* the model ran out of fuel *)

(** What the training loop changes: the weights, the output written so far,
    and (as a counter of the model) the number of calls of [gradient]. *)
Record Training : Type := mkTraining {
  weights : Weights;
  log : list Progress;
  evaluations : nat
}.

(** [weights.w = weights.w - alpha * ws.w; weights.b = weights.b - alpha * ws.b]. *)
Definition update (alpha : double) (weights ws : Weights) : Weights :=
  {| w := Double.sub (w weights) (Double.mul alpha (w ws));
     b := Double.sub (b weights) (Double.mul alpha (b ws)) |}.

(** The loop [for (int i = ...; i <= iterations; i++) { ... }] from the index
    [i] on.  For [i >= 0], which holds throughout, C's [i % every] is [Z.rem]. *)
Fixpoint training_loop (fuel : nat) (x y : IntVec) (alpha : double)
    (iterations every : Z) (i : Z) (st : Training) : LoopEnd * Training :=
  match fuel with
  | O => (LoopFuel, st)
  | S fuel =>
    if i <=? iterations then
      let ws := gradient x y (weights st) in
      let weights := update alpha (weights st) ws in
      if every =? 0 then
        (LoopUndefined ModuloByZero,
         {| weights := weights; log := log st; evaluations := S (evaluations st) |})
      else
        let st :=
          {| weights := weights;
             log := if Z.rem i every =? 0
                    then log st ++ [ {| iteration := i; shown := weights |} ]
                    else log st;
             evaluations := S (evaluations st) |} in
        if i =? INT_MAX then (LoopUndefined SignedOverflow, st)
        else training_loop fuel x y alpha iterations every (i + 1) st
    else (LoopDone, st)
  end.

(** The training loop of [main], from [Weights weights = {.w = w, .b = b}] and
    [i = 0].  The loop test is evaluated at most [iterations + 2] times, and
    once when [iterations] is negative (lemma [train_run]). *)
Definition train (x y : IntVec) (cfg : Settings.t) : LoopEnd * Training :=
  training_loop (S (Z.to_nat (Settings.iterations cfg + 1))) x y
    (Settings.alpha cfg) (Settings.iterations cfg) (Settings.every cfg) 0
    {| weights := {| w := Settings.w cfg; b := Settings.b cfg |};
       log := [];
       evaluations := 0 |}.

(** ** The program *)

(** How the process ends. *)
Inductive Status : Type :=
  | Exit (code : Z)
  | Undef (u : Undefined)
  | Unfinished.                   (* the model of the loop ran out of fuel *)

(** What a run can see of its environment. *)
Record World : Type := mkWorld {
  argv : list string;
  fopen_r : string -> option string;   (* the contents, when the file opens for reading *)
  fopen_w : string -> bool             (* whether the file opens for writing *)
}.

(** What a run does: how it ends, what it wrote to [stderr], the output file it
    opened (if any), and the training it performed (if it got that far). *)
Record Outcome : Type := mkOutcome {
  status : Status;
  errors : list Message;
  output_file : option string;
  training : option Training
}.

Definition records (o : Outcome) : list Progress :=
  match training o with
  | Some t => log t
  | None => []
  end.

Definition fail (errors : list Message) : Outcome :=
  {| status := Exit 1; errors := errors; output_file := None; training := None |}.

Section Program.

(** The C library's [atof] is not part of the program; everything below holds
    for any function from C strings to doubles. *)
Variable atof : string -> double.

(** The body of the settings loop: the chain of [strcmp]s. *)
Definition set_option (key value : string) (st : Settings.t * list Message)
    : Settings.t * list Message :=
  let '(cfg, err) := st in
  let '(Settings.mk w b alpha iterations every output) := cfg in
  if String.eqb key "w" then
    (Settings.mk (atof value) b alpha iterations every output, err)
  else if String.eqb key "b" then
    (Settings.mk w (atof value) alpha iterations every output, err)
  else if String.eqb key "alpha" then
    (Settings.mk w b (atof value) iterations every output, err)
  else if String.eqb key "iterations" then
    (Settings.mk w b alpha (Double.to_int (atof value)) every output, err)
  else if String.eqb key "log-every" then
    (Settings.mk w b alpha iterations (Double.to_int (atof value)) output, err)
  else if String.eqb key "output" then
    (Settings.mk w b alpha iterations every (strncpy 100 value), err)
  else
    (cfg, err ++ [UnknownKey key]).

(** The loop [while (fscanf(settings_file, "%10s %100s", key, value) == 2)]. *)
Fixpoint read_settings (fuel : nat) (f : string) (st : Settings.t * list Message)
    : Settings.t * list Message :=
  match fuel with
  | O => st
  | S fuel =>
    match fscanf_s_s f with
    | Some (key, value, f) => read_settings fuel f (set_option key value st)
    | None => st
    end
  end.

(** The key/value records of the settings stream, as [fscanf] delivers them. *)
Fixpoint settings_records (fuel : nat) (f : string) : list (string * string) :=
  match fuel with
  | O => []
  | S fuel =>
    match fscanf_s_s f with
    | Some (key, value, f) => (key, value) :: settings_records fuel f
    | None => []
    end
  end.

(** The settings of a run: the defaults, overridden by the settings file
    when the command line names one; [None] when that file does not open. *)
Definition load_settings (W : World) : option (Settings.t * list Message) :=
  if (length (argv W) =? 3)%nat then
    match fopen_r W (argv W !!! 2%nat) with
    | None => None
    | Some settings_file =>
      Some (read_settings (String.length settings_file) settings_file
              (Settings.defaults, []))
    end
  else Some (Settings.defaults, []).

(** The end of [main] after the training loop: [fclose(output_file)], the two
    [free]s and [return 0]. *)
Definition exit_status (e : LoopEnd) (output_file : option string) : Status :=
  match e with
  | LoopDone =>
    match output_file with
    | Some _ => Exit 0
    | None => Undef FcloseNull
    end
  | LoopUndefined u => Undef u
  | LoopFuel => Unfinished
  end.

Definition main (W : World) : Outcome :=
  let argc := length (argv W) in
  if ((argc <? 2) || (3 <? argc))%nat then
    fail [Usage (argv W !!! 0%nat)]
  else
    match fopen_r W (argv W !!! 1%nat) with
    | None => fail [Perror "Error opening target-value file"]
    | Some input_target_pair_file =>
      let '(x, y) :=
        read_pairs (String.length input_target_pair_file)
          input_target_pair_file new_intvec new_intvec in
      match load_settings W with
      | None => fail [Perror "Error opening settings file"]
      | Some (cfg, err) =>
        if negb (String.eqb (Settings.output cfg) EmptyString)
           && negb (fopen_w W (Settings.output cfg))
        then fail (err ++ [Perror "Error Opening File"])
        else
          let output_file :=
            if String.eqb (Settings.output cfg) EmptyString then None
            else Some (Settings.output cfg) in
          let '(e, st) := train x y cfg in
          {| status := exit_status e output_file;
             errors := err;
             output_file := output_file;
             training := Some st |}
      end
    end.

End Program.

(** ** A concrete [atof] for running the program

    [atof] on the numerals [[+|-]digits[.digits]]: the value of the longest
    such prefix, correctly rounded; [0.0] when there is none.  (The C function
    also reads exponents, hexadecimal numerals, infinities and NaNs; the
    examples below use none of them.) *)
Definition atof_decimal (s : string) : double :=
  let '(neg, s) :=
    match s with
    | String "-"%char t => (true, t)
    | String "+"%char t => (false, t)
    | _ => (false, s)
    end in
  let '(int_part, s') := scan_digits s 0 in
  let int_digits := (String.length s - String.length s')%nat in
  let '(m, frac_digits) :=
    match s' with
    | String "."%char t =>
      let '(m, rest) := scan_digits t int_part in
      (m, (String.length t - String.length rest)%nat)
    | _ => (int_part, 0%nat)
    end in
  if (int_digits + frac_digits =? 0)%nat then Double.zero
  else
    match m with
    | Z0 => S754_zero neg
    | _ =>
      let '(q, e, l) :=
        SFdiv_core_binary Double.prec Double.emax m 0 (10 ^ Z.of_nat frac_digits) 0 in
      binary_round_aux Double.prec Double.emax neg q e l
    end.

(** ** The specification's formulas *)

(** The prediction [w * x_i + b] of the model, in double arithmetic. *)
Definition prediction (ws : Weights) (xi : Z) : double :=
  Double.add (Double.mul (w ws) (Double.of_Z xi)) (b ws).

(** The residual [w * x_i + b - y_i] of one sample. *)
Definition residual (ws : Weights) (xi yi : Z) : double :=
  Double.sub (prediction ws xi) (Double.of_Z yi).

(** The terms that one sample adds to the two sums. *)
Definition dw_term (ws : Weights) (p : Z * Z) : double :=
  Double.mul (residual ws (fst p) (snd p)) (Double.of_Z (fst p)).

Definition db_term (ws : Weights) (p : Z * Z) : double :=
  residual ws (fst p) (snd p).

(** What one pass of the loop of [gradient] adds for the sample [p]. *)
Definition accumulate (ws : Weights) (acc : double * double) (p : Z * Z)
    : double * double :=
  (Double.add (fst acc) (dw_term ws p), Double.add (snd acc) (db_term ws p)).

(** A sum of doubles, taken from [0.0] in the order of the list.  (Addition of
    doubles is not associative: the order is part of the definition.) *)
Definition dsum (l : list double) : double := foldl Double.add Double.zero l.

(** The spec's formula for the gradient,
    [dw = (sum_{i<n} (w x_i + b - y_i) x_i) / n], [db = (sum_{i<n} (w x_i + b - y_i)) / n],
    over the series [xs] and [ys], with [n = len xs]. *)
Definition gradient_formula (xs ys : list Z) (ws : Weights) : Weights :=
  let n := Double.of_Z (Z.of_nat (length xs)) in
  {| w := Double.div (dsum (map (dw_term ws) (zip xs ys))) n;
     b := Double.div (dsum (map (db_term ws) (zip xs ys))) n |}.

(** The parameters after [k] updates, that is, before the update of iteration
    [k] is applied. *)
Definition weights_before (x y : IntVec) (cfg : Settings.t) (k : nat) : Weights :=
  Nat.iter k (fun ws => update (Settings.alpha cfg) ws (gradient x y ws))
    {| w := Settings.w cfg; b := Settings.b cfg |}.

(** The progress record that shows the parameters as they are once the update
    of iteration [i] has been applied. *)
Definition record_after (x y : IntVec) (cfg : Settings.t) (i : Z) : Progress :=
  {| iteration := i; shown := weights_before x y cfg (S (Z.to_nat i)) |}.

(** The iterations of a run that log: [i] in [0..iterations] with
    [i mod every = 0]. *)
Definition logged_iterations (cfg : Settings.t) : list Z :=
  List.filter (fun i => Z.rem i (Settings.every cfg) =? 0)
    (seqZ 0 (Settings.iterations cfg + 1)).

(** A series rearranged by an index mapping [pi]: position [j] of the result
    holds element [pi[j]] of [l]. *)
Definition permute (pi : list nat) (l : list Z) : list Z :=
  map (fun i => l !!! i) pi.

(** [pi] is a permutation of the index range [0..n-1]. *)
Definition is_permutation (n : nat) (pi : list nat) : Prop := pi ≡ₚ seq 0 n.

Section Resolver.

Variable atof : string -> double.

(** The value of the last record of the stream with the given key. *)
Definition last_value (key : string) (recs : list (string * string)) : option string :=
  last (map snd (List.filter (fun kv => String.eqb (fst kv) key) recs)).

Definition recognized (key : string) : bool :=
  bool_decide (key ∈ ["w"; "b"; "alpha"; "iterations"; "log-every"; "output"]).

(** The spec's resolved configuration: the documented defaults, overlaid with
    the last occurrence of each recognized key. *)
Definition overlay (recs : list (string * string)) : Settings.t :=
  let pick {A} (key : string) (conv : string -> A) (default : A) : A :=
    from_option conv default (last_value key recs) in
  {| Settings.w := pick "w" atof Double.zero;
     Settings.b := pick "b" atof Double.zero;
     Settings.alpha := pick "alpha" atof (Double.div (Double.of_Z 1) (Double.of_Z 100000));
     Settings.iterations := pick "iterations" (fun v => Double.to_int (atof v)) 100000;
     Settings.every := pick "log-every" (fun v => Double.to_int (atof v)) 100;
     Settings.output := pick "output" (strncpy 100) EmptyString |}.

(** One warning per record with an unrecognized key, in stream order. *)
Definition warnings (recs : list (string * string)) : list Message :=
  map UnknownKey (List.filter (fun key => negb (recognized key)) (map fst recs)).

End Resolver.

(** ** The run of [main] up to the training loop *)

(** The command line is well formed, the input file opens and holds [pairs],
    the settings resolve to [cfg] with the warnings [err], and the output file
    (if one is named) opens: the run gets to the training loop. *)
Definition reaches_training (atof : string -> double) (W : World)
    (pairs : string) (cfg : Settings.t) (err : list Message) : Prop :=
  (2 <= length (argv W) <= 3)%nat /\
  fopen_r W (argv W !!! 1%nat) = Some pairs /\
  load_settings atof W = Some (cfg, err) /\
  (Settings.output cfg = EmptyString \/ fopen_w W (Settings.output cfg) = true).

(** The outcome that reports an empty input as a fatal configuration error:
    an error message, a non-zero exit status, and no training at all. *)
Definition degenerate_input_reported (o : Outcome) : Prop :=
  errors o <> [] /\
  (exists code, status o = Exit code /\ code <> 0) /\
  training o = None /\
  records o = [].

(** The outcome of a run stopped by a modulo by zero in the logging condition
    of the very first iteration: one gradient evaluated, nothing logged. *)
Definition modulo_by_zero_at_first_iteration (o : Outcome) : Prop :=
  status o = Undef ModuloByZero /\
  exists t, training o = Some t /\ evaluations t = 1%nat /\ log t = [].

(** ** Concrete runs *)

Definition newline : string := String (ascii_of_nat 10) EmptyString.

(** A text file with the given lines. *)
Definition text (ls : list string) : string :=
  String.concat EmptyString (map (fun l => String.append l newline) ls).

(** The world with the given command line and readable files, in which every
    file opens for writing. *)
Definition world (args : list string) (files : list (string * string)) : World :=
  {| argv := args;
     fopen_r := fun path =>
       snd <$> List.find (fun kv => String.eqb (fst kv) path) files;
     fopen_w := fun _ => true |}.

(** The samples [(1,2), (2,3), (3,4)] of the line [y = x + 1]. *)
Definition line_x : IntVec := vec_of_list [1; 2; 3].
Definition line_y : IntVec := vec_of_list [2; 3; 4].

(** [w = 0], [b = 0], [alpha = 0.1], [iterations = 0], [log-every = 1]. *)
Definition one_step : Settings.t :=
  {| Settings.w := Double.zero;
     Settings.b := Double.zero;
     Settings.alpha := atof_decimal "0.1";
     Settings.iterations := 0;
     Settings.every := 1;
     Settings.output := EmptyString |}.

(** As [one_step], with three more iterations. *)
Definition four_steps : Settings.t :=
  {| Settings.w := Double.zero;
     Settings.b := Double.zero;
     Settings.alpha := atof_decimal "0.1";
     Settings.iterations := 3;
     Settings.every := 1;
     Settings.output := EmptyString |}.

(** The parameters [w = 1], [b = 1] of the line [y = x + 1]. *)
Definition line_weights : Weights :=
  {| w := Double.of_Z 1; b := Double.of_Z 1 |}.

(** Three samples whose residuals at [w = 2^53], [b = 0] are [2^53], [1] and
    [-2^53], and the index mapping that exchanges the last two. *)
Definition uneven_x : list Z := [1; 0; -1].
Definition uneven_y : list Z := [0; -1; 0].
Definition uneven_weights : Weights :=
  {| w := Double.of_Z (2 ^ 53); b := Double.zero |}.
Definition swap_last : list nat := [0; 2; 1]%nat.

(** Two samples on the line [y = x], the parameters of that line, and the
    index mapping that exchanges the two. *)
Definition diagonal : list Z := [1; 2].
Definition diagonal_weights : Weights :=
  {| w := Double.of_Z 1; b := Double.zero |}.
Definition swap : list nat := [1; 0]%nat.

(** An empty input file, two iterations logged to [out.txt]. *)
Definition empty_input_world : World :=
  world ["prog"; "in.txt"; "settings.txt"]
    [("in.txt", EmptyString);
     ("settings.txt", text ["iterations 1"; "log-every 1"; "output out.txt"])].

(** Three samples, and the logging interval set to zero. *)
Definition log_every_0_world : World :=
  world ["prog"; "in.txt"; "settings.txt"]
    [("in.txt", text ["1 2"; "2 3"; "3 4"]);
     ("settings.txt", text ["log-every 0"])].

(** The logging interval set to zero and a negative iteration count. *)
Definition log_every_0_no_iteration_world : World :=
  world ["prog"; "in.txt"; "settings.txt"]
    [("in.txt", text ["1 2"; "2 3"; "3 4"]);
     ("settings.txt", text ["log-every 0"; "iterations -1"; "output out.txt"])].

(** A negative iteration count, output to [stdout]. *)
Definition negative_iterations_world : World :=
  world ["prog"; "in.txt"; "settings.txt"]
    [("in.txt", text ["1 2"; "2 3"; "3 4"]);
     ("settings.txt", text ["iterations -1"])].

(** ** Well-formed texts *)

(** A character of a word: neither white space nor NUL. *)
Definition word_char (c : ascii) : bool :=
  negb (isspace c) && negb (Ascii.eqb c zero).

(** A string of word characters. *)
Fixpoint is_word (s : string) : bool :=
  match s with
  | String c t => word_char c && is_word t
  | EmptyString => true
  end.

(** The stream is at its end or continues with white space. *)
Definition at_break (s : string) : bool :=
  match s with
  | String c _ => isspace c
  | EmptyString => true
  end.

(** A key that fits [char key[11]] and a value that fits [char value[101]]. *)
Definition fits (kv : string * string) : Prop :=
  is_word kv.1 = true /\ (1 <= String.length kv.1 <= 10)%nat /\
  is_word kv.2 = true /\ (1 <= String.length kv.2 <= 100)%nat.

(** A settings file with one line ["key value"] per record. *)
Fixpoint settings_text (kvs : list (string * string)) : string :=
  match kvs with
  | [] => EmptyString
  | (key, value) :: kvs =>
    String.append key
      (String " " (String.append value (String.append newline (settings_text kvs))))
  end.

(** The character of a decimal digit. *)
Definition digit_char (d : nat) : ascii := ascii_of_nat (48 + d).

Fixpoint digits_text (ds : list nat) : string :=
  match ds with
  | [] => EmptyString
  | d :: ds => String (digit_char d) (digits_text ds)
  end.

(** A decimal numeral: whether it has a minus sign, and its digits, the most
    significant first. *)
Definition numeral : Type := bool * list nat.

Definition numeral_text (n : numeral) : string :=
  if n.1 then String "-" (digits_text n.2) else digits_text n.2.

(** The integer that a numeral denotes. *)
Definition numeral_value (n : numeral) : Z :=
  let v := foldl (fun a d => 10 * a + Z.of_nat d) 0 n.2 in
  if n.1 then - v else v.

(** A numeral of an [int]: at least one digit, digits below ten, the value in
    range. *)
Definition numeral_ok (n : numeral) : Prop :=
  n.2 <> [] /\ Forall (fun d => d < 10)%nat n.2 /\ is_int (numeral_value n).

(** An input file with one line ["x y"] per sample. *)
Fixpoint pairs_text (ps : list (numeral * numeral)) : string :=
  match ps with
  | [] => EmptyString
  | (a, b) :: ps =>
    String.append (numeral_text a)
      (String " " (String.append (numeral_text b)
                     (String.append newline (pairs_text ps))))
  end.

(** ** More concrete runs *)

(** A vector filled to its initial capacity. *)
Definition full_vec : IntVec := vec_of_list (replicate 256 7).

(** The series [1, 2, 3] in a block of five cells, the last two never written. *)
Definition padded_x : IntVec := {| data := [1; 2; 3; 7; 7]; size := 3; capacity := 5 |}.

(** [w = 0], [b = 0], [alpha = 0.1], [iterations = 5], [log-every = 2]. *)
Definition every_other_step : Settings.t :=
  {| Settings.w := Double.zero;
     Settings.b := Double.zero;
     Settings.alpha := atof_decimal "0.1";
     Settings.iterations := 5;
     Settings.every := 2;
     Settings.output := EmptyString |}.

(** Training from the parameters [w = 1], [b = 1] of the line [y = x + 1]. *)
Definition from_the_line : Settings.t :=
  {| Settings.w := Double.of_Z 1;
     Settings.b := Double.of_Z 1;
     Settings.alpha := atof_decimal "0.1";
     Settings.iterations := 3;
     Settings.every := 1;
     Settings.output := EmptyString |}.

(** Training from a weight that is not a number. *)
Definition from_nan : Settings.t :=
  {| Settings.w := Double.nan;
     Settings.b := Double.zero;
     Settings.alpha := atof_decimal "0.1";
     Settings.iterations := 3;
     Settings.every := 1;
     Settings.output := EmptyString |}.

(** Two iterations, logged to [stdout]. *)
Definition stdout_world : World :=
  world ["prog"; "in.txt"; "settings.txt"]
    [("in.txt", text ["1 2"; "2 3"; "3 4"]);
     ("settings.txt", text ["iterations 1"; "log-every 1"])].

(** Two iterations, logged to [out.txt]. *)
Definition file_world : World :=
  world ["prog"; "in.txt"; "settings.txt"]
    [("in.txt", text ["1 2"; "2 3"; "3 4"]);
     ("settings.txt", text ["iterations 1"; "log-every 1"; "output out.txt"])].

(** The largest iteration count. *)
Definition int_max_world : World :=
  world ["prog"; "in.txt"; "settings.txt"]
    [("in.txt", text ["1 2"; "2 3"; "3 4"]);
     ("settings.txt", text ["iterations 2147483647"; "log-every 1000000"])].

(** The settings that the run with the largest iteration count resolves. *)
Definition int_max_settings : Settings.t :=
  {| Settings.w := Double.zero;
     Settings.b := Double.zero;
     Settings.alpha := Settings.alpha Settings.defaults;
     Settings.iterations := 2147483647;
     Settings.every := 1000000;
     Settings.output := EmptyString |}.

(** The samples [(1, 2)] and [(-10, 37)] as numerals. *)
Definition two_samples : list (numeral * numeral) :=
  [((false, [1]), (false, [2])); ((true, [1; 0]), (false, [3; 7]))]%nat.

(** ** Exact readings *)

(** The exponent of a finite double [(-1)^s * m * 2^e]. *)
Definition exponent_of (d : double) : Z :=
  match d with
  | S754_finite _ _ e => e
  | _ => 0
  end.

(** The real number that a finite double denotes, counted in units of [2^E]
    (an integer, for [E] at most the double's exponent); nothing for an
    infinity or a NaN. *)
Definition in_units (E : Z) (d : double) : option Z :=
  match d with
  | S754_zero _ => Some 0
  | S754_finite s m e => Some ((if s then - Z.pos m else Z.pos m) * 2 ^ (e - E))
  | _ => None
  end.

(** The sample [(xi, yi)] lies on the line of [ws]: [yi = w * xi + b] as an
    equation between real numbers, no rounding anywhere.  Both sides are
    counted in units of [2^E], with [E] at most the exponents of [w] and [b]
    and at most [0], which makes the equation one between integers. *)
Definition on_the_line (ws : Weights) (xi yi : Z) : Prop :=
  let E := Z.min 0 (Z.min (exponent_of (w ws)) (exponent_of (b ws))) in
  match in_units E (w ws), in_units E (b ws) with
  | Some uw, Some ub => uw * xi + ub = yi * 2 ^ (- E)
  | _, _ => False
  end.

(** The run [r] of the training loop emits exactly the progress records of the
    iterations [l]: the loop ends at its test, and these are its records. *)
Definition emits_exactly (r : LoopEnd * Training) (l : list Z) : Prop :=
  r.1 = LoopDone /\ map iteration (log r.2) = l.

(** ** Runs at the limits *)

(** The sample [(3, 2)] and the parameters [w = 2^53 + 2],
    [b = -(3 * 2^53 + 4)], both doubles, of a line through it:
    [3 * (2^53 + 2) - (3 * 2^53 + 4) = 2]. *)
Definition steep_x : IntVec := vec_of_list [3].
Definition steep_y : IntVec := vec_of_list [2].
Definition steep_weights : Weights :=
  {| w := Double.of_Z (2 ^ 53 + 2); b := Double.of_Z (- (3 * 2 ^ 53 + 4)) |}.

(** The largest iteration count, every iteration logged. *)
Definition int_max_every_step : Settings.t :=
  {| Settings.w := Double.zero;
     Settings.b := Double.zero;
     Settings.alpha := Settings.alpha Settings.defaults;
     Settings.iterations := 2147483647;
     Settings.every := 1;
     Settings.output := EmptyString |}.



(** * Properties *)

(** ** The vector *)

Lemma wrap_int_is_int z : is_int (wrap_int z).
Proof.
  unfold is_int, wrap_int, INT_MIN, INT_MAX.
  pose proof (Z.mod_pos_bound (z + 2 ^ 31) (2 ^ 32)). lia.
Qed.

Lemma new_intvec_wf : vec_wf new_intvec.
Proof.
  split; cbn [capacity size data new_intvec].
  - unfold INIT_SIZE. lia.
  - lia.
  - apply length_replicate.
  - unfold vec_elems. cbn. constructor.
Qed.

Lemma vec_append_size vec i : size (vec_append vec i) = S (size vec).
Proof. unfold vec_append. by destruct (capacity vec <=? size vec)%nat. Qed.

(** Appending stores the element right after the ones already held, whether
    or not the block is grown first. *)
Lemma vec_append_elems vec i :
  vec_wf vec -> vec_elems (vec_append vec i) = vec_elems vec ++ [i].
Proof.
  intros [Hc Hs Hd _]. unfold vec_append, vec_elems.
  destruct (Nat.leb_spec (capacity vec) (size vec)) as [Hfull|Hroom];
    cbn [data size capacity].
  - assert (size vec = length (data vec)) as Heq by lia.
    rewrite (take_S_r _ _ i).
    + rewrite take_insert_ge by lia. by rewrite Heq, take_app_length, take_ge.
    + apply list_lookup_insert_eq. rewrite length_app, length_replicate. lia.
  - rewrite (take_S_r _ _ i).
    + by rewrite take_insert_ge by lia.
    + apply list_lookup_insert_eq. lia.
Qed.

Lemma vec_append_wf vec i : vec_wf vec -> is_int i -> vec_wf (vec_append vec i).
Proof.
  intros Hwf Hi. pose proof (vec_append_elems vec i Hwf) as Hel.
  destruct Hwf as [Hc Hs Hd Hints]. split.
  - unfold vec_append.
    destruct (Nat.leb_spec (capacity vec) (size vec)); cbn [capacity]; lia.
  - unfold vec_append.
    destruct (Nat.leb_spec (capacity vec) (size vec)); cbn [capacity size]; lia.
  - unfold vec_append.
    destruct (Nat.leb_spec (capacity vec) (size vec)); cbn [capacity data];
      rewrite length_insert, ?length_app, ?length_replicate; lia.
  - rewrite Hel. apply Forall_app_2; [done | by constructor].
Qed.

Lemma vec_elems_length vec : vec_wf vec -> length (vec_elems vec) = size vec.
Proof.
  intros [_ Hs Hd _]. unfold vec_elems. apply length_take_le. lia.
Qed.

(** Inside its size, a vector is read as its series. *)
Lemma vec_get_elems vec i :
  (i < size vec)%nat -> vec_get vec i = vec_elems vec !!! i.
Proof.
  intros Hi. unfold vec_get, vec_elems. by rewrite lookup_total_take_lt.
Qed.

Lemma vec_of_list_spec l :
  Forall is_int l -> vec_wf (vec_of_list l) /\ vec_elems (vec_of_list l) = l.
Proof.
  unfold vec_of_list.
  induction l as [|a l IH] using rev_ind; intros Hl.
  - split; [apply new_intvec_wf | done].
  - apply Forall_app in Hl as [Hl Ha]. inversion_clear Ha as [|? ? Ha' _].
    destruct (IH Hl) as [Hwf Hel]. rewrite foldl_snoc. split.
    + by apply vec_append_wf.
    + by rewrite vec_append_elems, Hel.
Qed.

(** ** The gradient *)

Lemma foldl_ext_in {A B} (f g : A -> B -> A) (l : list B) (a : A) :
  (forall a i, i ∈ l -> f a i = g a i) -> foldl f a l = foldl g a l.
Proof.
  revert a. induction l as [|i l IH]; intros a Hfg; [done|].
  cbn. rewrite Hfg by left. apply IH. intros a' j Hj. apply Hfg. by right.
Qed.

(** A loop over the indices of a list is a fold over its elements. *)
Lemma foldl_indices {A B} `{!Inhabited B} (g : A -> B -> A) (l : list B) (a : A) :
  foldl (fun a i => g a (l !!! i)) a (seq 0 (length l)) = foldl g a l.
Proof.
  induction l as [|p l IH] using rev_ind; [done|].
  rewrite length_app, Nat.add_1_r, seq_S, !foldl_app. cbn.
  rewrite lookup_total_app_r, Nat.sub_diag by lia. cbn. f_equal.
  rewrite <- IH. apply foldl_ext_in. intros a' i Hi.
  apply elem_of_seq in Hi. by rewrite lookup_total_app_l by lia.
Qed.

(** The two accumulators evolve independently: the paired fold is the pair of
    the two sums. *)
Lemma foldl_accumulate ws (ps : list (Z * Z)) (acc : double * double) :
  foldl (accumulate ws) acc ps =
  (foldl Double.add (fst acc) (map (dw_term ws) ps),
   foldl Double.add (snd acc) (map (db_term ws) ps)).
Proof.
  revert acc. induction ps as [|p ps IH]; intros [a1 a2]; [done|].
  cbn. by rewrite IH.
Qed.

Lemma lookup_total_zip (xs ys : list Z) (i : nat) :
  (i < length xs)%nat -> (i < length ys)%nat ->
  zip xs ys !!! i = (xs !!! i, ys !!! i).
Proof.
  intros Hx Hy. apply list_lookup_total_correct.
  rewrite lookup_zip_with.
  by rewrite !list_lookup_lookup_total_lt.
Qed.

(** The loop of [gradient] computes the two sums over the paired series. *)
Lemma gradient_loop x y ws :
  vec_wf x -> vec_wf y -> size x = size y ->
  foldl (gradient_body x y ws) (Double.zero, Double.zero) (seq 0 (size x)) =
  (dsum (map (dw_term ws) (zip (vec_elems x) (vec_elems y))),
   dsum (map (db_term ws) (zip (vec_elems x) (vec_elems y)))).
Proof.
  intros Hx Hy Hsz.
  pose proof (vec_elems_length x Hx) as Hlx.
  pose proof (vec_elems_length y Hy) as Hly.
  unfold dsum. rewrite <- (foldl_accumulate ws _ (Double.zero, Double.zero)).
  rewrite <- (foldl_indices (accumulate ws) (zip (vec_elems x) (vec_elems y))).
  rewrite length_zip_with, Hlx, Hly, <- Hsz, Nat.min_id.
  apply foldl_ext_in. intros acc i Hi. apply elem_of_seq in Hi.
  rewrite lookup_total_zip by lia.
  unfold gradient_body, accumulate, dw_term, db_term, residual, prediction.
  cbn [fst snd].
  by rewrite <- !vec_get_elems by lia.
Qed.

(** C2.  For series [x], [y] of the same length [n > 0] and any parameters
    [(w, b)], [gradient] returns
    [dw = (sum_{i<n} ((w x[i] + b - y[i]) x[i])) / n] and
    [db = (sum_{i<n} (w x[i] + b - y[i])) / n]: the sums of the per-sample
    terms divided by [n], with no factor of 2. *)
Theorem gradient_is_formula (x y : IntVec) (ws : Weights) :
  vec_wf x -> vec_wf y -> size x = size y -> (0 < size x)%nat ->
  gradient x y ws = gradient_formula (vec_elems x) (vec_elems y) ws.
Proof.
  intros Hx Hy Hsz _. unfold gradient, gradient_formula.
  rewrite (gradient_loop x y ws Hx Hy Hsz).
  by rewrite (vec_elems_length x Hx).
Qed.

(** ** Facts about binary64 arithmetic *)

Lemma digits2_pos_size p : digits2_pos p = Pos.size p.
Proof. induction p; cbn; congruence. Qed.

Lemma Zdigits2_pos m : 0 < m -> 0 < Zdigits2 m /\ 2 ^ (Zdigits2 m - 1) <= m.
Proof.
  destruct m as [|p|p]; try lia. intros _. cbn [Zdigits2]. split; [lia|].
  rewrite digits2_pos_size.
  pose proof (Pos.size_le p) as H.
  apply Pos2Z.pos_le_pos in H. rewrite Pos2Z.inj_pow in H.
  replace (Z.pos (Pos.size p)) with (Z.succ (Z.pos (Pos.size p) - 1)) in H by lia.
  rewrite Z.pow_succ_r in H by lia. lia.
Qed.

Lemma shr_1_m mrs : 0 <= shr_m mrs -> shr_m (shr_1 mrs) = shr_m mrs / 2.
Proof.
  destruct mrs as [m r s]. cbn [shr_m]. intros Hm.
  rewrite <- Z.div2_div.
  destruct m as [|[p|p|]|p]; try reflexivity; lia.
Qed.

Lemma pow2_xO p : 2 ^ Z.pos p~0 = 2 ^ Z.pos p * 2 ^ Z.pos p.
Proof. rewrite <- Z.pow_add_r by lia. f_equal. lia. Qed.

Lemma pow2_xI p : 2 ^ Z.pos p~1 = 2 * (2 ^ Z.pos p * 2 ^ Z.pos p).
Proof.
  rewrite <- Z.pow_add_r, <- Z.pow_succ_r by lia. f_equal. lia.
Qed.

Lemma iter_pos_shr_m p mrs :
  0 <= shr_m mrs ->
  shr_m (SpecFloat.iter_pos shr_1 p mrs) = shr_m mrs / 2 ^ Z.pos p.
Proof.
  revert mrs. induction p as [p IH|p IH|]; intros mrs Hm; cbn [SpecFloat.iter_pos].
  - assert (0 <= shr_m (shr_1 mrs)) as H1.
    { rewrite shr_1_m by done. apply Z.div_pos; lia. }
    assert (0 <= shr_m (SpecFloat.iter_pos shr_1 p (shr_1 mrs))) as H2.
    { rewrite IH by done. apply Z.div_pos; lia. }
    rewrite IH, IH, shr_1_m by done.
    rewrite !Z.div_div by lia. by rewrite pow2_xI, !Z.mul_assoc.
  - assert (0 <= shr_m (SpecFloat.iter_pos shr_1 p mrs)) as H2.
    { rewrite IH by done. apply Z.div_pos; lia. }
    rewrite IH, IH by done.
    rewrite !Z.div_div by lia. by rewrite pow2_xO.
  - rewrite shr_1_m by done. by rewrite Z.pow_1_r.
Qed.

Lemma shr_record_of_loc_m m l : shr_m (shr_record_of_loc m l) = m.
Proof. by destruct l as [|[]]. Qed.

(** A right shift by fewer bits than the mantissa has leaves it positive. *)
Lemma shr_positive m l e n :
  0 < m -> n < Zdigits2 m ->
  0 < shr_m (shr (shr_record_of_loc m l) e n).1 /\
  (shr (shr_record_of_loc m l) e n).2 = e + Z.max 0 n.
Proof.
  intros Hm Hn. destruct (Zdigits2_pos m Hm) as [Hd Hpow].
  destruct n as [|p|p]; cbn [shr fst snd].
  - rewrite shr_record_of_loc_m. lia.
  - rewrite iter_pos_shr_m by (rewrite shr_record_of_loc_m; lia).
    rewrite shr_record_of_loc_m. split; [|lia].
    apply Z.div_str_pos. split; [lia|].
    assert (2 ^ Z.pos p <= 2 ^ (Zdigits2 m - 1)); [|lia].
    apply Z.pow_le_mono_r; lia.
  - rewrite shr_record_of_loc_m. lia.
Qed.

Lemma round_nearest_even_ge m l : m <= round_nearest_even m l.
Proof.
  destruct l as [|[]]; cbn; try lia. destruct (Z.even m); lia.
Qed.

(** Rounding a positive mantissa whose exponent is not below the least one
    yields a finite number or an infinity of the given sign: neither a zero nor
    a NaN. *)
Lemma binary_round_aux_positive sx m e l :
  0 < m -> emin Double.prec Double.emax <= e ->
  (exists m' e', binary_round_aux Double.prec Double.emax sx m e l = S754_finite sx m' e') \/
  binary_round_aux Double.prec Double.emax sx m e l = S754_infinity sx.
Proof.
  intros Hm He. unfold binary_round_aux, shr_fexp.
  destruct (Zdigits2_pos m Hm) as [Hd _].
  assert (fexp Double.prec Double.emax (Zdigits2 m + e) - e < Zdigits2 m) as Hn.
  { unfold fexp, emin, Double.prec, Double.emax in *. lia. }
  destruct (shr_positive m l e _ Hm Hn) as [Hm1 He1].
  destruct (shr (shr_record_of_loc m l) e _) as [mrs1 e1]. cbn [fst snd] in *.
  pose proof (round_nearest_even_ge (shr_m mrs1) (loc_of_shr_record mrs1)) as Hr.
  set (r := round_nearest_even (shr_m mrs1) (loc_of_shr_record mrs1)) in *.
  assert (0 < r) as Hr0 by lia.
  destruct (Zdigits2_pos r Hr0) as [Hdr _].
  assert (fexp Double.prec Double.emax (Zdigits2 r + e1) - e1 < Zdigits2 r) as Hn2.
  { unfold fexp, emin, Double.prec, Double.emax in *. lia. }
  destruct (shr_positive r loc_Exact e1 _ Hr0 Hn2) as [Hm2 _].
  destruct (shr (shr_record_of_loc r loc_Exact) e1 _) as [mrs2 e2]. cbn [fst snd] in *.
  destruct (shr_m mrs2) as [|m2|m2]; [lia| |lia].
  destruct (e2 <=? _); eauto.
Qed.

Lemma digits2_pos_iter_xO m d :
  digits2_pos (Pos.iter xO m d) = (digits2_pos m + d)%positive.
Proof.
  induction d as [|d IH] using Pos.peano_ind.
  - cbn. lia.
  - rewrite Pos.iter_succ. cbn. rewrite IH. lia.
Qed.

(** An integer of at most 53 bits is converted exactly, to a finite double. *)
Lemma binary_round_small sx mx :
  Z.pos (digits2_pos mx) <= 53 ->
  exists m e, binary_round Double.prec Double.emax sx mx 0 = S754_finite sx m e.
Proof.
  intros Hd. unfold binary_round.
  assert (fexp Double.prec Double.emax (Z.pos (digits2_pos mx) + 0)
          = Z.pos (digits2_pos mx) - 53) as Hfexp.
  { unfold fexp, emin, Double.prec, Double.emax. lia. }
  rewrite Hfexp.
  destruct (shl_align mx 0 _) as [mz ez] eqn:Halign.
  assert (Z.pos (digits2_pos mz) = 53 /\ -52 <= ez <= 0) as [Hdz Hez].
  { unfold shl_align in Halign.
    destruct (Z.pos (digits2_pos mx) - 53 - 0) as [|q|q] eqn:Hshift;
      inversion Halign; subst; [lia|lia|].
    rewrite digits2_pos_iter_xO. lia. }
  unfold binary_round_aux, shr_fexp. cbn [Zdigits2]. rewrite Hdz.
  assert (fexp Double.prec Double.emax (53 + ez) - ez = 0) as ->.
  { unfold fexp, emin, Double.prec, Double.emax. lia. }
  cbn [shr shr_record_of_loc shr_m loc_of_shr_record round_nearest_even Zdigits2].
  rewrite Hdz.
  assert (fexp Double.prec Double.emax (53 + ez) - ez = 0) as ->.
  { unfold fexp, emin, Double.prec, Double.emax. lia. }
  cbn [shr shr_m].
  destruct (Z.leb_spec ez (Double.emax - Double.prec)); [eauto|].
  unfold Double.prec, Double.emax in *. lia.
Qed.

Lemma is_int_digits z p :
  is_int z -> Z.abs z = Z.pos p -> Z.pos (digits2_pos p) <= 53.
Proof.
  unfold is_int, INT_MIN, INT_MAX. intros Hz Hp.
  rewrite digits2_pos_size.
  destruct (Z.le_gt_cases (Z.pos (Pos.size p)) 53) as [|Hbig]; [done|].
  pose proof (Pos.size_le p) as H.
  apply Pos2Z.pos_le_pos in H. rewrite Pos2Z.inj_pow in H.
  assert (2 ^ 54 <= 2 ^ Z.pos (Pos.size p)) by (apply Z.pow_le_mono_r; lia).
  lia.
Qed.

(** The conversion of an [int] is a zero or a finite double. *)
Lemma of_Z_int z :
  is_int z ->
  Double.of_Z z = Double.zero \/ exists s m e, Double.of_Z z = S754_finite s m e.
Proof.
  intros Hz. unfold Double.of_Z, binary_normalize.
  destruct z as [|p|p]; [by left|right; exists false|right; exists true];
    apply binary_round_small, (is_int_digits _ _ Hz); reflexivity.
Qed.

(** The conversion of a positive integer is positive: finite or infinite. *)
Lemma of_Z_positive n :
  0 < n ->
  (exists m e, Double.of_Z n = S754_finite false m e) \/
  Double.of_Z n = S754_infinity false.
Proof.
  destruct n as [|p|p]; [lia| |lia]. intros _.
  unfold Double.of_Z, binary_normalize, binary_round.
  destruct (shl_align p 0 _) as [mz ez] eqn:Halign.
  apply binary_round_aux_positive; [lia|].
  unfold shl_align in Halign.
  destruct (_ - 0) eqn:Hshift; inversion Halign; subst;
    unfold fexp, emin, Double.prec, Double.emax in *; lia.
Qed.

Lemma compare_cont_Eq_eq m1 m2 : Pos.compare_cont Eq m1 m2 = Eq -> m1 = m2.
Proof. apply Pos.compare_eq. Qed.

(** Two doubles that compare equal, the second one a zero or finite, differ by
    a zero. *)
Lemma sub_of_equal f g :
  g = Double.zero \/ (exists s m e, g = S754_finite s m e) ->
  Double.eqb f g = true ->
  exists s, Double.sub f g = S754_zero s.
Proof.
  unfold Double.eqb, SFeqb.
  intros [-> | (s & m & e & ->)] Heq.
  - destruct f as [sf|sf| |sf mf ef]; cbn in Heq; try done.
    + destruct sf; eauto.
    + by destruct sf.
    + by destruct sf.
  - destruct f as [sf|sf| |sf mf ef]; cbn in Heq; try done.
    + by destruct s.
    + by destruct sf.
    + assert (sf = s /\ ef = e /\ mf = m) as (-> & -> & ->).
      { destruct sf, s; try done;
          destruct (Z.compare_spec ef e) as [->| |]; try done.
        - destruct (Pos.compare_cont Eq mf m) eqn:Hm; try done.
          by apply compare_cont_Eq_eq in Hm as ->.
        - destruct (Pos.compare_cont Eq mf m) eqn:Hm; try done.
          by apply compare_cont_Eq_eq in Hm as ->. }
      exists false. unfold Double.sub, SFsub. cbv zeta.
      by rewrite Z.sub_diag.
Qed.

Lemma mul_zero_l s g :
  g = Double.zero \/ (exists s' m e, g = S754_finite s' m e) ->
  exists s', Double.mul (S754_zero s) g = S754_zero s'.
Proof. intros [-> | (s' & m & e & ->)]; cbn; eauto. Qed.

Lemma add_zero_signed s : Double.add Double.zero (S754_zero s) = Double.zero.
Proof. by destruct s. Qed.

(** A sum of signed zeros is [+0.0]. *)
Lemma dsum_zeros (l : list double) :
  Forall (fun d => exists s, d = S754_zero s) l -> dsum l = Double.zero.
Proof.
  unfold dsum. induction 1 as [|d l [s ->] _ IH]; [done|].
  cbn [foldl]. by rewrite add_zero_signed.
Qed.

Lemma div_zero_positive n :
  0 < n -> Double.div Double.zero (Double.of_Z n) = Double.zero.
Proof.
  intros Hn. by destruct (of_Z_positive n Hn) as [(m & e & ->) | ->].
Qed.

(** C5, as the code has it.  For non-empty series [x], [y] of equal length and
    parameters [(w, b)] whose prediction [w * x[i] + b], as the program computes
    it in double arithmetic, equals [y[i]] at every index [i], [gradient]
    returns exactly [(0.0, 0.0)]. *)
Theorem exact_fit_has_zero_gradient (x y : IntVec) (ws : Weights) :
  vec_wf x -> vec_wf y -> size x = size y -> (0 < size x)%nat ->
  (forall i : nat, (i < size x)%nat ->
     Double.eqb (prediction ws (vec_get x i)) (Double.of_Z (vec_get y i)) = true) ->
  gradient x y ws = {| w := Double.zero; b := Double.zero |}.
Proof.
  intros Hx Hy Hsz Hn Hfit. unfold gradient.
  rewrite (gradient_loop x y ws Hx Hy Hsz).
  pose proof (vec_elems_length x Hx) as Hlx.
  pose proof (vec_elems_length y Hy) as Hly.
  assert (Forall (fun p => exists s, residual ws p.1 p.2 = S754_zero s)
            (zip (vec_elems x) (vec_elems y)) /\
          Forall (fun p => is_int p.1) (zip (vec_elems x) (vec_elems y)))
    as [Hres Hint].
  { rewrite <- Forall_and. apply Forall_lookup. intros i [xi yi] Hi.
    apply lookup_zip_with_Some in Hi as (? & ? & [= <- <-] & Hxi & Hyi).
    assert (i < size x)%nat as Hlt by (apply lookup_lt_Some in Hxi; lia).
    assert (is_int xi) as Hxint.
    { eapply Forall_lookup_1; [apply (wf_ints x Hx) | done]. }
    assert (is_int yi) as Hyint.
    { eapply Forall_lookup_1; [apply (wf_ints y Hy) | done]. }
    specialize (Hfit i Hlt). rewrite !vec_get_elems in Hfit by lia.
    rewrite (list_lookup_total_correct _ _ _ Hxi) in Hfit.
    rewrite (list_lookup_total_correct _ _ _ Hyi) in Hfit.
    split; [|done]. cbn [fst snd]. unfold residual.
    apply sub_of_equal; [by apply of_Z_int | done]. }
  rewrite !dsum_zeros.
  - by rewrite div_zero_positive by lia.
  - apply Forall_fmap. eapply Forall_impl; [exact Hres|]. by intros p Hp.
  - apply Forall_fmap. apply Forall_lookup. intros i p Hi.
    destruct (Forall_lookup_1 _ _ _ _ Hres Hi) as [s Hs].
    pose proof (Forall_lookup_1 _ _ _ _ Hint Hi) as Hp.
    unfold dw_term. cbn. rewrite Hs. apply mul_zero_l. by apply of_Z_int.
Qed.

Lemma ints_wf (l : list Z) :
  forallb (fun z => (INT_MIN <=? z) && (z <=? INT_MAX)) l = true ->
  vec_wf (vec_of_list l) /\ vec_elems (vec_of_list l) = l.
Proof.
  intros Hl. apply vec_of_list_spec, Forall_forall. intros z Hz.
  rewrite forallb_forall in Hl. apply list_elem_of_In, Hl in Hz.
  unfold is_int. lia.
Qed.

(** The line [y = x + 1] fits its samples exactly. *)
Lemma exact_fit_has_zero_gradient_witness :
  gradient line_x line_y line_weights = {| w := Double.zero; b := Double.zero |}.
Proof.
  apply exact_fit_has_zero_gradient.
  - apply (ints_wf [1; 2; 3]). reflexivity.
  - apply (ints_wf [2; 3; 4]). reflexivity.
  - reflexivity.
  - simpl. lia.
  - intros i Hi. destruct i as [|[|[|i]]]; [reflexivity..|simpl in Hi; lia].
Defined.

(** C5, as the specification states it, fails: the sample [(3, 2)] lies exactly on the line with
    [w = 2^53 + 2] and [b = -(3 * 2^53 + 4)], yet [gradient] returns [(6, 2)].
    The product [w * 3 = 3 * 2^53 + 6] is not a double and is rounded to
    [3 * 2^53 + 8], so the prediction is [4] and the residual [2]. *)
Lemma exact_line_has_nonzero_gradient :
  vec_elems steep_x = [3] /\ vec_elems steep_y = [2] /\
  on_the_line steep_weights 3 2 /\
  gradient steep_x steep_y steep_weights =
    {| w := Double.of_Z 6; b := Double.of_Z 2 |} /\
  gradient steep_x steep_y steep_weights <>
    {| w := Double.zero; b := Double.zero |}.
Proof.
  split; [reflexivity|]. split; [reflexivity|].
  split; [vm_compute; reflexivity|].
  split; [vm_compute; reflexivity|].
  vm_compute. discriminate.
Qed.

(** The formula on the samples of the line [y = x + 1]. *)
Lemma gradient_is_formula_witness :
  gradient line_x line_y line_weights =
  gradient_formula (vec_elems line_x) (vec_elems line_y) line_weights.
Proof.
  apply gradient_is_formula.
  - apply (ints_wf [1; 2; 3]). reflexivity.
  - apply (ints_wf [2; 3; 4]). reflexivity.
  - reflexivity.
  - simpl. lia.
Defined.

(** The gradient at [(0, 0)] on the samples [(1,2), (2,3), (3,4)] is
    [(-20/3, -3)]: the plain averages, not their doubles. *)
Example gradient_line_at_origin :
  gradient line_x line_y {| w := Double.zero; b := Double.zero |} =
  {| w := Double.div (Double.of_Z (-20)) (Double.of_Z 3); b := Double.of_Z (-3) |}.
Proof. by vm_compute. Qed.

(** ** Permuting the series *)

Lemma lookup_total_seq_fmap {A} `{!Inhabited A} (l : list A) :
  map (fun i => l !!! i) (seq 0 (length l)) = l.
Proof.
  induction l as [|a l IH] using rev_ind; [done|].
  rewrite length_app, Nat.add_1_r, seq_S, map_app. cbn.
  rewrite lookup_total_app_r, Nat.sub_diag by lia. cbn. f_equal.
  etrans; [|apply IH]. apply map_ext_in. intros i Hi.
  apply in_seq in Hi. by rewrite lookup_total_app_l by lia.
Qed.

Lemma permutation_bound n pi : is_permutation n pi -> Forall (fun i => i < n)%nat pi.
Proof.
  intros Hpi. apply Forall_forall. intros i Hi.
  unfold is_permutation in Hpi. rewrite Hpi in Hi.
  apply elem_of_seq in Hi. lia.
Qed.

(** Permuting two series by the same index mapping permutes their pairs. *)
Lemma zip_permute (pi : list nat) (xs ys : list Z) :
  length xs = length ys ->
  Forall (fun i => i < length xs)%nat pi ->
  zip (permute pi xs) (permute pi ys) = map (fun i => zip xs ys !!! i) pi.
Proof.
  intros Hlen. unfold permute. induction 1 as [|i pi Hi _ IH]; [done|].
  cbn. by rewrite IH, lookup_total_zip by lia.
Qed.

Lemma permute_permutation {A} `{!Inhabited A} (pi : list nat) (l : list A) :
  is_permutation (length l) pi -> map (fun i => l !!! i) pi ≡ₚ l.
Proof.
  intros Hpi. unfold is_permutation in Hpi.
  pose proof (Permutation_map (fun i => l !!! i) Hpi) as Hmap.
  by rewrite lookup_total_seq_fmap in Hmap.
Qed.

(** C6, as the code has it.  Under a permutation of [x] and [y] by the same
    index mapping, [gradient] divides by the same [n] the sums of the same
    per-sample terms, taken in the permuted order: the result can differ from
    [gradient x y] only through the order of the double additions.  When only
    one of the two series is permuted, the gradient changes in general. *)
Theorem gradient_sums_permuted_terms :
  (forall (x y x' y' : IntVec) (ws : Weights) (pi : list nat),
     vec_wf x -> vec_wf y -> vec_wf x' -> vec_wf y' ->
     size x = size y -> (0 < size x)%nat ->
     is_permutation (size x) pi ->
     vec_elems x' = permute pi (vec_elems x) ->
     vec_elems y' = permute pi (vec_elems y) ->
     let terms := zip (vec_elems x) (vec_elems y) in
     let terms' := zip (vec_elems x') (vec_elems y') in
     let n := Double.of_Z (Z.of_nat (size x)) in
     terms' ≡ₚ terms /\
     map (dw_term ws) terms' ≡ₚ map (dw_term ws) terms /\
     map (db_term ws) terms' ≡ₚ map (db_term ws) terms /\
     gradient x y ws =
       {| w := Double.div (dsum (map (dw_term ws) terms)) n;
          b := Double.div (dsum (map (db_term ws) terms)) n |} /\
     gradient x' y' ws =
       {| w := Double.div (dsum (map (dw_term ws) terms')) n;
          b := Double.div (dsum (map (db_term ws) terms')) n |}) /\
  (is_permutation 2 swap /\
   gradient (vec_of_list diagonal) (vec_of_list (permute swap diagonal))
     diagonal_weights <>
   gradient (vec_of_list diagonal) (vec_of_list diagonal) diagonal_weights).
Proof.
  split.
  - intros x y x' y' ws pi Hx Hy Hx' Hy' Hsz Hn Hpi Hex Hey terms terms' n.
    pose proof (vec_elems_length x Hx) as Hlx.
    pose proof (vec_elems_length y Hy) as Hly.
    pose proof (vec_elems_length x' Hx') as Hlx'.
    pose proof (vec_elems_length y' Hy') as Hly'.
    assert (length pi = size x) as Hlpi.
    { unfold is_permutation in Hpi. by rewrite Hpi, length_seq. }
    assert (size x' = size x) as Hsx'.
    { rewrite <- Hlx', Hex. unfold permute. by rewrite length_map. }
    assert (size y' = size x) as Hsy'.
    { rewrite <- Hly', Hey. unfold permute. by rewrite length_map. }
    assert (terms' ≡ₚ terms) as Hterms.
    { subst terms terms'. rewrite Hex, Hey, zip_permute.
      - apply permute_permutation.
        by rewrite length_zip_with, Hlx, Hly, <- Hsz, Nat.min_id.
      - lia.
      - rewrite Hlx. by apply permutation_bound. }
    split; [done|]. split; [by apply Permutation_map|].
    split; [by apply Permutation_map|]. split.
    + unfold gradient. by rewrite (gradient_loop x y ws Hx Hy Hsz).
    + unfold gradient. rewrite (gradient_loop x' y' ws Hx' Hy') by lia.
      by rewrite Hsx'.
  - split.
    + unfold is_permutation, swap. cbn. apply Permutation_swap.
    + by vm_compute.
Qed.

(** The samples of the line [y = x + 1] with the last two exchanged. *)
Lemma gradient_sums_permuted_terms_witness :
  let x' := vec_of_list (permute swap_last [1; 2; 3]) in
  let y' := vec_of_list (permute swap_last [2; 3; 4]) in
  let terms := zip (vec_elems line_x) (vec_elems line_y) in
  let terms' := zip (vec_elems x') (vec_elems y') in
  let n := Double.of_Z (Z.of_nat (size line_x)) in
  terms' ≡ₚ terms /\
  map (dw_term line_weights) terms' ≡ₚ map (dw_term line_weights) terms /\
  map (db_term line_weights) terms' ≡ₚ map (db_term line_weights) terms /\
  gradient line_x line_y line_weights =
    {| w := Double.div (dsum (map (dw_term line_weights) terms)) n;
       b := Double.div (dsum (map (db_term line_weights) terms)) n |} /\
  gradient x' y' line_weights =
    {| w := Double.div (dsum (map (dw_term line_weights) terms')) n;
       b := Double.div (dsum (map (db_term line_weights) terms')) n |}.
Proof.
  intros x' y'.
  apply (proj1 gradient_sums_permuted_terms line_x line_y x' y' line_weights swap_last).
  - apply (ints_wf [1; 2; 3]). reflexivity.
  - apply (ints_wf [2; 3; 4]). reflexivity.
  - apply (ints_wf [1; 3; 2]). reflexivity.
  - apply (ints_wf [2; 4; 3]). reflexivity.
  - reflexivity.
  - simpl. lia.
  - unfold is_permutation, swap_last. simpl. apply perm_skip, perm_swap.
  - reflexivity.
  - reflexivity.
Defined.

(** C6, as the specification states it, fails: with [w = 2^53] and [b = 0] the samples
    [(1,0), (0,-1), (-1,0)] have the residuals [2^53], [1], [-2^53]; summed in
    this order the [1] is absorbed and [db = 0], whereas with the last two
    samples exchanged (in both series) [db = 1/3]. *)
Lemma gradient_depends_on_sample_order :
  is_permutation 3 swap_last /\
  gradient (vec_of_list (permute swap_last uneven_x))
    (vec_of_list (permute swap_last uneven_y)) uneven_weights <>
  gradient (vec_of_list uneven_x) (vec_of_list uneven_y) uneven_weights.
Proof.
  split.
  - unfold is_permutation, swap_last. simpl. apply perm_skip, perm_swap.
  - by vm_compute.
Qed.

(** ** Reading the sample pairs *)

Lemma skip_space_length s : (String.length (skip_space s) <= String.length s)%nat.
Proof.
  induction s as [|c s IH]; cbn; [lia|].
  destruct (isspace c); cbn; lia.
Qed.

Lemma scan_digits_length s acc :
  (String.length (scan_digits s acc).2 <= String.length s)%nat.
Proof.
  revert acc. induction s as [|c s IH]; intros acc; cbn; [lia|].
  destruct (digit_of c); cbn; [|lia]. specialize (IH (10 * acc + z)). lia.
Qed.

Lemma scan_int_inv s v rest :
  scan_int s = Some (v, rest) ->
  is_int v /\ (String.length rest < String.length s)%nat.
Proof.
  unfold scan_int. cbv zeta. intros H.
  pose proof (skip_space_length s) as Hs.
  destruct (match skip_space s with
            | String "-"%char t => (true, t)
            | String "+"%char t => (false, t)
            | _ => (false, skip_space s)
            end) as [neg s1] eqn:Hsign.
  assert (String.length s1 <= String.length (skip_space s))%nat as Hs1.
  { destruct (skip_space s) as [|c t]; [by inversion Hsign|].
    destruct c as [[] [] [] [] [] [] [] []]; inversion Hsign; subst; cbn; lia. }
  destruct s1 as [|c t]; [done|].
  destruct (digit_of c) as [d|]; [|done].
  pose proof (scan_digits_length t d) as Ht.
  destruct (scan_digits t d) as [n r]. inversion H; subst. split.
  - apply wrap_int_is_int.
  - cbn in *. lia.
Qed.

Lemma fscanf_d_d_inv f x_temp y_temp f' :
  fscanf_d_d f = Some (x_temp, y_temp, f') ->
  is_int x_temp /\ is_int y_temp /\ (String.length f' < String.length f)%nat.
Proof.
  unfold fscanf_d_d. intros H.
  destruct (scan_int f) as [[a f1]|] eqn:H1; [|done].
  destruct (scan_int (skip_space f1)) as [[c f2]|] eqn:H2; [|done].
  inversion H; subst.
  apply scan_int_inv in H1 as [? ?]. apply scan_int_inv in H2 as [? ?].
  pose proof (skip_space_length f1). split; [done|]. split; [done|lia].
Qed.

(** The fuel that [main] gives the loop is enough: more rounds than the file
    has characters read nothing more. *)
Lemma read_pairs_fuel k1 k2 f x y :
  (String.length f <= k1)%nat -> (String.length f <= k2)%nat ->
  read_pairs k1 f x y = read_pairs k2 f x y.
Proof.
  revert k2 f x y. induction k1 as [|k1 IH]; intros k2 f x y H1 H2.
  - destruct f; [|cbn in H1; lia]. by destruct k2.
  - destruct k2 as [|k2].
    { destruct f; [done | cbn in H2; lia]. }
    cbn. destruct (fscanf_d_d f) as [[[a c] f']|] eqn:Hf; [|done].
    apply fscanf_d_d_inv in Hf as (_ & _ & Hlen). apply IH; lia.
Qed.

Lemma input_records_fuel k1 k2 f :
  (String.length f <= k1)%nat -> (String.length f <= k2)%nat ->
  input_records k1 f = input_records k2 f.
Proof.
  revert k2 f. induction k1 as [|k1 IH]; intros k2 f H1 H2.
  - destruct f; [|cbn in H1; lia]. by destruct k2.
  - destruct k2 as [|k2].
    { destruct f; [done | cbn in H2; lia]. }
    cbn. destruct (fscanf_d_d f) as [[[a c] f']|] eqn:Hf; [|done].
    apply fscanf_d_d_inv in Hf as (_ & _ & Hlen). f_equal. apply IH; lia.
Qed.

(** The invariant of the reading loop, from any pair of vectors of equal size. *)
Lemma read_pairs_invariant k f x0 y0 x y :
  vec_wf x0 -> vec_wf y0 -> size x0 = size y0 ->
  read_pairs k f x0 y0 = (x, y) ->
  vec_wf x /\ vec_wf y /\ size x = size y /\
  vec_elems x = vec_elems x0 ++ (input_records k f).*1 /\
  vec_elems y = vec_elems y0 ++ (input_records k f).*2.
Proof.
  revert f x0 y0. induction k as [|k IH]; intros f x0 y0 Hx Hy Hsz Hrun; cbn in *.
  - inversion Hrun; subst. by rewrite !app_nil_r.
  - destruct (fscanf_d_d f) as [[[a c] f']|] eqn:Hf.
    + apply fscanf_d_d_inv in Hf as (Ha & Hc & _).
      apply IH in Hrun as (? & ? & ? & Hex & Hey).
      * rewrite Hex, Hey, !vec_append_elems by done. cbn.
        by rewrite <- !app_assoc.
      * by apply vec_append_wf.
      * by apply vec_append_wf.
      * by rewrite !vec_append_size, Hsz.
    + inversion Hrun; subst. cbn. by rewrite !app_nil_r.
Qed.

(** C7.  After any number [k] of rounds of the reading loop (so: after every
    record consumed, and when the loop has ended, at the end of the file or at a
    malformed record), [x] and [y] hold equally many elements, and [x[i]] and
    [y[i]] are the two integers of the [i]-th record, a record being what one
    successful call of [fscanf] delivers. *)
Theorem ingestion_keeps_pairs (k : nat) (f : string) :
  let '(x, y) := read_pairs k f new_intvec new_intvec in
  size x = size y /\
  length (vec_elems x) = length (vec_elems y) /\
  size x = length (input_records k f) /\
  forall i : nat, (i < size x)%nat ->
    input_records k f !! i = Some (vec_get x i, vec_get y i).
Proof.
  destruct (read_pairs k f new_intvec new_intvec) as [x y] eqn:Hrun.
  apply read_pairs_invariant in Hrun as (Hx & Hy & Hsz & Hex & Hey);
    [|apply new_intvec_wf..|done].
  change (vec_elems new_intvec) with (@nil Z) in *. cbn in Hex, Hey.
  pose proof (vec_elems_length x Hx) as Hlx.
  pose proof (vec_elems_length y Hy) as Hly.
  assert (size x = length (input_records k f)) as Hn.
  { by rewrite <- Hlx, Hex, length_fmap. }
  repeat split; [done|lia|done|].
  intros i Hi.
  destruct (input_records k f !! i) as [[a c]|] eqn:Hrec.
  - rewrite !vec_get_elems by lia. rewrite Hex, Hey.
    rewrite (list_lookup_total_correct _ i a), (list_lookup_total_correct _ i c);
      [done|by rewrite list_lookup_fmap, Hrec..].
  - apply lookup_ge_None in Hrec. lia.
Qed.

(** ** The training loop *)

Lemma weights_before_S x y cfg k :
  weights_before x y cfg (S k) =
  update (Settings.alpha cfg) (weights_before x y cfg k)
    (gradient x y (weights_before x y cfg k)).
Proof. reflexivity. Qed.

(** The loop from index [i] on, entered with the parameters that [i] updates
    have produced: it runs the iterations [i..iterations], logs the updated
    parameters at those divisible by [every], and ends at the loop test or, when
    [iterations = INT_MAX], at the overflowing [i++]. *)
Lemma training_loop_run fuel x y cfg i st :
  Settings.every cfg <> 0 ->
  0 <= i <= Settings.iterations cfg + 1 ->
  Settings.iterations cfg <= INT_MAX ->
  Settings.iterations cfg + 1 - i < Z.of_nat fuel ->
  weights st = weights_before x y cfg (Z.to_nat i) ->
  training_loop fuel x y (Settings.alpha cfg) (Settings.iterations cfg)
    (Settings.every cfg) i st =
  (if (i <=? Settings.iterations cfg) && (Settings.iterations cfg =? INT_MAX)
   then LoopUndefined SignedOverflow else LoopDone,
   {| weights := weights_before x y cfg (Z.to_nat (Settings.iterations cfg + 1));
      log := log st ++
             map (record_after x y cfg)
               (List.filter (fun k => Z.rem k (Settings.every cfg) =? 0)
                  (seqZ i (Settings.iterations cfg + 1 - i)));
      evaluations := evaluations st + Z.to_nat (Settings.iterations cfg + 1 - i) |}).
Proof.
  set (N := Settings.iterations cfg). set (ev := Settings.every cfg).
  intros Hev. revert i st.
  induction fuel as [|fuel IH]; intros i st Hi HN Hfuel Hw; [lia|].
  cbn [training_loop].
  destruct (Z.leb_spec i N) as [Hle|Hgt]; cbn [andb].
  - destruct (Z.eqb_spec ev 0) as [|_]; [done|].
    assert (Z.to_nat (i + 1) = S (Z.to_nat i)) as HSi by lia.
    assert (update (Settings.alpha cfg) (weights st) (gradient x y (weights st))
            = weights_before x y cfg (S (Z.to_nat i))) as Hstep.
    { by rewrite weights_before_S, Hw. }
    rewrite Hstep.
    rewrite (seqZ_cons i) by lia. cbn [List.filter map].
    destruct (Z.eqb_spec i INT_MAX) as [Hmax|Hmax].
    + assert (N = i) as HNi by lia.
      replace (N =? INT_MAX) with true by (symmetry; apply Z.eqb_eq; lia).
      replace (Z.pred (N + 1 - i)) with 0 by lia.
      replace (Z.to_nat (N + 1)) with (S (Z.to_nat i)) by lia.
      replace (Z.to_nat (N + 1 - i)) with 1%nat by lia.
      rewrite Nat.add_1_r. f_equal. f_equal.
      destruct (Z.rem i ev =? 0); cbn; [done | by rewrite app_nil_r].
    + rewrite IH; [|lia|done|lia|by rewrite HSi].
      cbn [weights log evaluations].
      replace (i + 1 <=? N) with (negb (N =? i)).
      2:{ destruct (Z.eqb_spec N i), (Z.leb_spec (i + 1) N); cbn; lia. }
      replace (negb (N =? i) && (N =? INT_MAX)) with (N =? INT_MAX).
      2:{ destruct (Z.eqb_spec N i), (Z.eqb_spec N INT_MAX); cbn; lia. }
      f_equal. f_equal.
      * replace (Z.succ i) with (i + 1) by lia.
        replace (Z.pred (N + 1 - i)) with (N + 1 - (i + 1)) by lia.
        destruct (Z.rem i ev =? 0); cbn [map app]; [|done].
        by rewrite <- app_assoc.
      * lia.
  - assert (i = N + 1) as -> by lia.
    replace (N + 1 - (N + 1)) with 0 by lia. cbn.
    rewrite app_nil_r, Nat.add_0_r, <- Hw. by destruct st.
Qed.

(** A run of the whole loop with a non-zero logging interval. *)
Lemma train_run x y cfg :
  Settings.every cfg <> 0 ->
  Settings.iterations cfg <= INT_MAX ->
  train x y cfg =
  (if (0 <=? Settings.iterations cfg) && (Settings.iterations cfg =? INT_MAX)
   then LoopUndefined SignedOverflow else LoopDone,
   {| weights := weights_before x y cfg (Z.to_nat (Settings.iterations cfg + 1));
      log := map (record_after x y cfg) (logged_iterations cfg);
      evaluations := Z.to_nat (Settings.iterations cfg + 1) |}).
Proof.
  intros Hev HN. unfold train, logged_iterations.
  destruct (Z.leb_spec 0 (Settings.iterations cfg + 1)) as [Hpos|Hneg].
  - rewrite training_loop_run; [|done|lia|done|lia|done].
    cbn [log evaluations app]. by rewrite Z.sub_0_r.
  - replace (Z.to_nat (Settings.iterations cfg + 1)) with 0%nat by lia.
    rewrite (seqZ_nil 0) by lia. cbn.
    destruct (Z.leb_spec 0 (Settings.iterations cfg)); [lia|done].
Qed.

(** A run of the loop with the logging interval zero: the first evaluation of
    [i % every] is a modulo by zero. *)
Lemma train_modulo_by_zero x y cfg :
  Settings.every cfg = 0 ->
  0 <= Settings.iterations cfg ->
  train x y cfg =
  (LoopUndefined ModuloByZero,
   {| weights := weights_before x y cfg 1; log := []; evaluations := 1 |}).
Proof.
  intros Hev HN. unfold train. cbn [training_loop].
  destruct (Z.leb_spec 0 (Settings.iterations cfg)); [|lia].
  by rewrite Hev.
Qed.

(** A run of the loop with a negative iteration count: the loop test fails at
    once. *)
Lemma train_negative x y cfg :
  Settings.iterations cfg < 0 ->
  train x y cfg =
  (LoopDone,
   {| weights := {| w := Settings.w cfg; b := Settings.b cfg |};
      log := []; evaluations := 0 |}).
Proof.
  intros HN. unfold train. cbn [training_loop].
  destruct (Z.leb_spec 0 (Settings.iterations cfg)); [lia|done].
Qed.

(** The loop always comes to an end within the fuel that [train] gives it. *)
Lemma train_terminates x y cfg :
  Settings.iterations cfg <= INT_MAX -> (train x y cfg).1 <> LoopFuel.
Proof.
  intros HN.
  destruct (Z.eq_dec (Settings.every cfg) 0) as [Hev|Hev].
  - destruct (Z.lt_ge_cases (Settings.iterations cfg) 0).
    + by rewrite train_negative.
    + by rewrite train_modulo_by_zero.
  - rewrite train_run by done. cbn. by destruct (_ && _).
Qed.

(** ** The settings *)

Lemma scan_chars_length width s :
  (String.length (scan_chars width s).2 <= String.length s)%nat.
Proof.
  revert s. induction width as [|k IH]; intros [|c t]; cbn; try lia.
  destruct (isspace c); cbn; [lia|].
  specialize (IH t). destruct (scan_chars k t). cbn in *. lia.
Qed.

Lemma skip_space_head s c t : skip_space s = String c t -> isspace c = false.
Proof.
  induction s as [|a s IH]; [done|]. cbn.
  destruct (isspace a) eqn:Ha; [done|]. by intros [= <- <-].
Qed.

Lemma scan_chars_S width c t :
  scan_chars (S width) (String c t) =
  if isspace c then (EmptyString, String c t)
  else let '(tok, rest) := scan_chars width t in (String c tok, rest).
Proof. reflexivity. Qed.

(** A word conversion of positive width consumes at least one character. *)
Lemma scan_word_inv width s tok rest :
  scan_word (S width) s = Some (tok, rest) ->
  (String.length rest < String.length s)%nat.
Proof.
  unfold scan_word. pose proof (skip_space_length s) as Hs.
  destruct (skip_space s) as [|c t] eqn:Hskip; [done|].
  rewrite scan_chars_S, (skip_space_head _ _ _ Hskip).
  pose proof (scan_chars_length width t) as Ht.
  destruct (scan_chars width t) as [tok' rest']. intros [= <- <-].
  cbn in *. lia.
Qed.

Lemma fscanf_s_s_inv f key value f' :
  fscanf_s_s f = Some (key, value, f') ->
  (String.length f' < String.length f)%nat.
Proof.
  unfold fscanf_s_s. intros H.
  destruct (scan_word 10 f) as [[k f1]|] eqn:H1; [|done].
  destruct (scan_word 100 (skip_space f1)) as [[v f2]|] eqn:H2; [|done].
  apply scan_word_inv in H1. apply scan_word_inv in H2.
  pose proof (skip_space_length f1). inversion H; subst. lia.
Qed.

Section ResolverProperties.

Variable atof : string -> double.

Lemma read_settings_fuel k1 k2 f st :
  (String.length f <= k1)%nat -> (String.length f <= k2)%nat ->
  read_settings atof k1 f st = read_settings atof k2 f st.
Proof.
  revert k2 f st. induction k1 as [|k1 IH]; intros k2 f st H1 H2.
  - destruct f; [|cbn in H1; lia]. by destruct k2.
  - destruct k2 as [|k2].
    { destruct f; [done | cbn in H2; lia]. }
    cbn. destruct (fscanf_s_s f) as [[[key value] f']|] eqn:Hf; [|done].
    apply fscanf_s_s_inv in Hf. apply IH; lia.
Qed.

(** The settings loop applies [set_option] to the records of the stream, in
    order. *)
Lemma read_settings_foldl k f st :
  read_settings atof k f st =
  foldl (fun st kv => set_option atof kv.1 kv.2 st) st (settings_records k f).
Proof.
  revert f st. induction k as [|k IH]; intros f st; [done|]. cbn.
  destruct (fscanf_s_s f) as [[[key value] f']|]; [|done]. by rewrite IH.
Qed.

Lemma last_value_snoc key recs k v :
  last_value key (recs ++ [(k, v)]) =
  if String.eqb k key then Some v else last_value key recs.
Proof.
  unfold last_value. rewrite List.filter_app, map_app. cbn [List.filter fst].
  destruct (String.eqb k key); cbn [map snd].
  - by rewrite last_snoc.
  - by rewrite app_nil_r.
Qed.

Lemma warnings_snoc recs k v :
  warnings (recs ++ [(k, v)]) =
  warnings recs ++ (if recognized k then [] else [UnknownKey k]).
Proof.
  unfold warnings. rewrite map_app, List.filter_app, map_app. cbn.
  by destruct (recognized k).
Qed.

Local Ltac known_key k key :=
  destruct (String.eqb_spec k key) as [->|];
  [cbn -[strncpy Double.of_Z Double.div Double.to_int recognized];
   unfold recognized; rewrite bool_decide_eq_true_2 by (repeat constructor);
   by rewrite app_nil_r|].

Lemma set_option_overlay recs k v :
  set_option atof k v (overlay atof recs, warnings recs) =
  (overlay atof (recs ++ [(k, v)]), warnings (recs ++ [(k, v)])).
Proof.
  rewrite warnings_snoc. unfold overlay, set_option.
  rewrite !last_value_snoc.
  known_key k "w". known_key k "b". known_key k "alpha".
  known_key k "iterations". known_key k "log-every". known_key k "output".
  replace (recognized k) with false; [done|].
  symmetry. apply bool_decide_eq_false. intros Hk.
  repeat (apply elem_of_cons in Hk as [?|Hk]; [done|]).
  by apply elem_of_nil in Hk.
Qed.

Lemma foldl_set_option recs :
  foldl (fun st kv => set_option atof kv.1 kv.2 st) (Settings.defaults, []) recs =
  (overlay atof recs, warnings recs).
Proof.
  induction recs as [|[k v] recs IH] using rev_ind; [done|].
  by rewrite foldl_snoc, IH, set_option_overlay.
Qed.

Lemma filter_key_recognized key recs :
  recognized key = true ->
  List.filter (fun kv : string * string => String.eqb kv.1 key)
    (List.filter (fun kv => recognized kv.1) recs) =
  List.filter (fun kv : string * string => String.eqb kv.1 key) recs.
Proof.
  intros Hkey. induction recs as [|[k v] recs IH]; [done|].
  cbn [List.filter fst]. destruct (recognized k) eqn:Hk; cbn [List.filter fst].
  - by rewrite IH.
  - destruct (String.eqb_spec k key) as [->|]; [congruence | done].
Qed.

(** The resolved settings do not depend on the records with unrecognized
    keys. *)
Lemma overlay_ignores_unrecognized recs :
  overlay atof (List.filter (fun kv => recognized kv.1) recs) = overlay atof recs.
Proof.
  unfold overlay, last_value. by rewrite !filter_key_recognized.
Qed.

(** The settings loop on the records that [fscanf] delivers: the resolved
    settings are the documented defaults overlaid with the last occurrence of
    each recognized key among these records; each record with an unrecognized
    key adds one warning to the error stream and changes nothing else. *)
Theorem settings_overlay_defaults (f : string) :
  let recs := settings_records (String.length f) f in
  read_settings atof (String.length f) f (Settings.defaults, []) =
    (overlay atof recs, warnings recs) /\
  overlay atof recs = overlay atof (List.filter (fun kv => recognized kv.1) recs) /\
  overlay atof [] =
    {| Settings.w := Double.zero;
       Settings.b := Double.zero;
       Settings.alpha := Double.div (Double.of_Z 1) (Double.of_Z 100000);
       Settings.iterations := 100000;
       Settings.every := 100;
       Settings.output := EmptyString |}.
Proof.
  intros recs. split; [|split; [|done]].
  - by rewrite read_settings_foldl, foldl_set_option.
  - by rewrite overlay_ignores_unrecognized.
Qed.

End ResolverProperties.

(** ** The progress log *)

Lemma iteration_record_after x y cfg (l : list Z) :
  map iteration (map (record_after x y cfg) l) = l.
Proof. induction l as [|i l IH]; [done|]. cbn. by rewrite IH. Qed.

(** C4, as the code has it.  For every run of the training loop with
    [iterations = N], [0 <= N < INT_MAX], and [log_every = 1], the loop ends at
    its test and exactly [N + 1] progress records are emitted, one for each
    iteration index [0..N], in increasing order. *)
Theorem one_record_per_iteration (x y : IntVec) (cfg : Settings.t) (N : Z) :
  0 <= N < INT_MAX ->
  Settings.iterations cfg = N ->
  Settings.every cfg = 1 ->
  emits_exactly (train x y cfg) (seqZ 0 (N + 1)) /\
  length (log (train x y cfg).2) = Z.to_nat (N + 1).
Proof.
  intros HN Hit Hev.
  assert (logged_iterations cfg = seqZ 0 (N + 1)) as Hall.
  { unfold logged_iterations. rewrite Hit, Hev.
    apply forallb_filter_id, forallb_forall. intros i _.
    rewrite Z.rem_1_r. done. }
  unfold emits_exactly.
  rewrite train_run by (rewrite ?Hit, ?Hev; lia). cbn [fst snd log].
  rewrite length_map, iteration_record_after, Hall, length_seqZ, Hit.
  replace (N =? INT_MAX) with false by lia. rewrite andb_false_r.
  split; [done|lia].
Qed.

(** C1, as the code has it.  For every run of the training loop (with a
    non-zero logging interval) the progress records are those of the iterations
    [i] in [0..iterations] with [i mod log_every = 0], and the record of
    iteration [i] reports the parameters as they are after that iteration's
    update has been applied; in particular the record of iteration [0] shows the
    initial [(w, b)] moved by one update. *)
Theorem log_shows_weights_after_update (x y : IntVec) (cfg : Settings.t) :
  Settings.every cfg <> 0 ->
  Settings.iterations cfg <= INT_MAX ->
  log (train x y cfg).2 = map (record_after x y cfg) (logged_iterations cfg) /\
  (0 <= Settings.iterations cfg ->
   log (train x y cfg).2 !! 0%nat =
   Some {| iteration := 0;
           shown := update (Settings.alpha cfg)
                      {| w := Settings.w cfg; b := Settings.b cfg |}
                      (gradient x y {| w := Settings.w cfg; b := Settings.b cfg |}) |}).
Proof.
  intros Hev HN. rewrite train_run by done. cbn [snd log]. split; [done|].
  intros Hpos. unfold logged_iterations.
  rewrite (seqZ_cons 0) by lia. cbn [List.filter].
  rewrite Z.rem_0_l by done. reflexivity.
Qed.

(** Four iterations on the samples of the line [y = x + 1]: four records. *)
Lemma one_record_per_iteration_witness :
  emits_exactly (train line_x line_y four_steps) (seqZ 0 (3 + 1)) /\
  length (log (train line_x line_y four_steps).2) = Z.to_nat (3 + 1).
Proof.
  apply (one_record_per_iteration line_x line_y four_steps 3).
  - unfold INT_MAX. lia.
  - reflexivity.
  - reflexivity.
Defined.

(** C4, as the specification states it, fails for [N = INT_MAX]: with [iterations = 2147483647] and
    [log_every = 1] the loop does not end after the record of iteration [N].
    Its test [i <= iterations] holds of every [int], and the increment of
    [i = INT_MAX] overflows, which is undefined; compiled for x86-64 without
    optimisation the counter wraps to [INT_MIN] and the loop goes on emitting
    records.  The run is not one that emits exactly [N + 1] records. *)
Lemma int_max_iterations_do_not_end :
  Settings.iterations int_max_every_step = INT_MAX /\
  Settings.every int_max_every_step = 1 /\
  (train line_x line_y int_max_every_step).1 = LoopUndefined SignedOverflow /\
  ~ emits_exactly (train line_x line_y int_max_every_step) (seqZ 0 (INT_MAX + 1)).
Proof.
  assert ((train line_x line_y int_max_every_step).1 =
          LoopUndefined SignedOverflow) as Hend.
  { rewrite train_run; [reflexivity | done | reflexivity]. }
  split; [reflexivity|]. split; [reflexivity|]. split; [exact Hend|].
  intros [Hdone _]. rewrite Hend in Hdone. discriminate Hdone.
Qed.

(** One iteration on the samples of the line [y = x + 1]. *)
Lemma log_shows_weights_after_update_witness :
  log (train line_x line_y one_step).2 =
  map (record_after line_x line_y one_step) (logged_iterations one_step) /\
  (0 <= Settings.iterations one_step ->
   log (train line_x line_y one_step).2 !! 0%nat =
   Some {| iteration := 0;
           shown := update (Settings.alpha one_step)
                      {| w := Settings.w one_step; b := Settings.b one_step |}
                      (gradient line_x line_y
                         {| w := Settings.w one_step; b := Settings.b one_step |}) |}).
Proof.
  apply (log_shows_weights_after_update line_x line_y one_step).
  - simpl. lia.
  - simpl. unfold INT_MAX. lia.
Defined.

(** C1, as the specification states it, fails: on the samples [(1,2), (2,3), (3,4)]
    with [w = b = 0], [alpha = 0.1], [iterations = 0] and [log-every = 1], the
    record of iteration [0] does not show the initial [(0, 0)] (it shows
    [w = 0.666...], [b = 0.3]). *)
Lemma log_does_not_show_weights_before_update :
  ~ (forall r : Progress,
       r ∈ log (train line_x line_y one_step).2 ->
       shown r = weights_before line_x line_y one_step (Z.to_nat (iteration r))).
Proof.
  intros Hlaw.
  specialize (Hlaw (record_after line_x line_y one_step 0)).
  assert (log (train line_x line_y one_step).2 =
          [record_after line_x line_y one_step 0]) as Hlog.
  { by vm_compute. }
  rewrite Hlog in Hlaw. specialize (Hlaw (list_elem_of_here _ _)).
  vm_compute in Hlaw. discriminate Hlaw.
Qed.

(** ** The program *)

Lemma to_int_is_int d : is_int (Double.to_int d).
Proof.
  unfold Double.to_int, is_int.
  destruct (Double.trunc d) as [z|]; [|unfold INT_MIN, INT_MAX; lia].
  destruct (Z.leb_spec INT_MIN z), (Z.leb_spec z INT_MAX); cbn;
    unfold INT_MIN, INT_MAX in *; lia.
Qed.

Section ProgramProperties.

Variable atof : string -> double.

Lemma overlay_iterations_is_int recs :
  is_int (Settings.iterations (overlay atof recs)).
Proof.
  unfold overlay. cbn [Settings.iterations].
  destruct (last_value "iterations" recs); cbn.
  - apply to_int_is_int.
  - unfold is_int, INT_MIN, INT_MAX. lia.
Qed.

(** The settings of a run: an [int] iteration count, and nothing on the error
    stream but warnings about unknown keys. *)
Lemma load_settings_inv W cfg err :
  load_settings atof W = Some (cfg, err) ->
  is_int (Settings.iterations cfg) /\
  Forall (fun m => exists key, m = UnknownKey key) err.
Proof.
  unfold load_settings. intros H.
  assert (exists recs, cfg = overlay atof recs /\ err = warnings recs)
    as (recs & -> & ->).
  { destruct (length (argv W) =? 3)%nat.
    - destruct (fopen_r W (argv W !!! 2%nat)) as [f|]; [|done].
      rewrite read_settings_foldl, foldl_set_option in H.
      inversion H; subst. eauto.
    - inversion H; subst. by exists []. }
  split; [apply overlay_iterations_is_int|].
  unfold warnings. apply Forall_forall. intros m Hm.
  apply list_elem_of_fmap in Hm as (key & -> & _). eauto.
Qed.

(** A run that gets to the training loop trains on the pairs read, with the
    settings resolved, and ends as the loop and [fclose] let it. *)
Lemma main_run W pairs cfg err :
  reaches_training atof W pairs cfg err ->
  main atof W =
  let '(x, y) := read_pairs (String.length pairs) pairs new_intvec new_intvec in
  let output_file :=
    if String.eqb (Settings.output cfg) EmptyString then None
    else Some (Settings.output cfg) in
  {| status := exit_status (train x y cfg).1 output_file;
     errors := err;
     output_file := output_file;
     training := Some (train x y cfg).2 |}.
Proof.
  intros (Hargc & Hin & Hset & Hout). unfold main.
  replace ((length (argv W) <? 2)%nat || (3 <? length (argv W))%nat) with false.
  2:{ symmetry. apply orb_false_intro; apply Nat.ltb_ge; lia. }
  rewrite Hin, Hset.
  destruct (read_pairs _ _ _ _) as [x y].
  replace (negb (String.eqb (Settings.output cfg) EmptyString)
           && negb (fopen_w W (Settings.output cfg))) with false.
  2:{ destruct Hout as [-> | ->]; [done|]. by rewrite andb_false_r. }
  by destruct (train x y cfg).
Qed.

(** The model of the loop never runs out of fuel: a run of [main] always ends
    with an exit status or at an undefined operation. *)
Lemma main_finishes W : status (main atof W) <> Unfinished.
Proof.
  unfold main.
  destruct (_ || _); [done|].
  destruct (fopen_r W _) as [pairs|]; [|done].
  destruct (read_pairs _ _ _ _) as [x y].
  destruct (load_settings atof W) as [[cfg err]|] eqn:Hset; [|done].
  destruct (_ && _); [done|].
  apply load_settings_inv in Hset as [[_ HN] _].
  pose proof (train_terminates x y cfg HN) as Hfuel.
  destruct (train x y cfg) as [e st]. cbn in *.
  destruct e; [by destruct (String.eqb _ _)|done|done].
Qed.

(** The progress records of a run: those of the training loop on the pairs
    read, with the settings resolved. *)
Lemma main_records W pairs cfg err :
  reaches_training atof W pairs cfg err ->
  Settings.every cfg <> 0 ->
  let '(x, y) := read_pairs (String.length pairs) pairs new_intvec new_intvec in
  records (main atof W) = map (record_after x y cfg) (logged_iterations cfg).
Proof.
  intros Hreach Hev. rewrite (main_run W pairs cfg err Hreach).
  destruct Hreach as (_ & _ & Hset & _).
  apply load_settings_inv in Hset as [[_ HN] _].
  destruct (read_pairs _ _ _ _) as [x y].
  unfold records. cbn [training]. by rewrite train_run.
Qed.

(** With no samples the gradient is [0.0 / 0], a NaN. *)
Lemma gradient_empty x y ws :
  size x = 0%nat -> gradient x y ws = {| w := Double.nan; b := Double.nan |}.
Proof. intros Hx. unfold gradient. by rewrite Hx. Qed.

Lemma update_nan alpha ws :
  update alpha ws {| w := Double.nan; b := Double.nan |} =
  {| w := Double.nan; b := Double.nan |}.
Proof.
  unfold update. cbn [w b].
  assert (Double.mul alpha Double.nan = Double.nan) as -> by by destruct alpha.
  by destruct (w ws), (b ws).
Qed.

Lemma weights_before_empty x y cfg k :
  size x = 0%nat ->
  weights_before x y cfg (S k) = {| w := Double.nan; b := Double.nan |}.
Proof.
  intros Hx. by rewrite weights_before_S, gradient_empty, update_nan.
Qed.

(** C3, as the code has it.  For every run that gets to the training loop (the
    files open) and whose input-pairs stream yields zero samples, no
    configuration error is reported (the error stream holds nothing but the
    warnings about unknown settings), the training loop is entered, every
    progress record it emits shows [w] and [b] as NaN (the gradient of the empty
    series is [0.0 / 0]), the records are those of any run with these settings
    when the logging interval is not zero, and the process does not exit with a
    non-zero status. *)
Theorem empty_input_is_trained_on (W : World) (pairs : string)
    (cfg : Settings.t) (err : list Message) :
  reaches_training atof W pairs cfg err ->
  input_records (String.length pairs) pairs = [] ->
  Forall (fun m => exists key, m = UnknownKey key) (errors (main atof W)) /\
  (forall code, status (main atof W) = Exit code -> code = 0) /\
  exists t, training (main atof W) = Some t /\
    (forall r, r ∈ log t -> shown r = {| w := Double.nan; b := Double.nan |}) /\
    (Settings.every cfg <> 0 -> map iteration (log t) = logged_iterations cfg) /\
    (Settings.every cfg <> 0 ->
     evaluations t = Z.to_nat (Settings.iterations cfg + 1)).
Proof.
  intros Hreach Hempty. rewrite (main_run W pairs cfg err Hreach).
  destruct Hreach as (_ & _ & Hset & _).
  apply load_settings_inv in Hset as [[_ HN] Herr].
  destruct (read_pairs _ _ _ _) as [x y] eqn:Hread.
  apply read_pairs_invariant in Hread as (Hx & _ & _ & Hex & _);
    [|apply new_intvec_wf..|done].
  assert (size x = 0%nat) as Hsz.
  { rewrite <- (vec_elems_length x Hx), Hex, Hempty. done. }
  cbn [errors status training]. split; [done|].
  destruct (Z.eq_dec (Settings.every cfg) 0) as [Hev|Hev].
  - destruct (Z.lt_ge_cases (Settings.iterations cfg) 0) as [Hneg|Hpos].
    + rewrite train_negative by done. cbn [fst snd exit_status]. split.
      * destruct (String.eqb _ _); [done|]. by intros code [= <-].
      * eexists. split; [done|]. cbn [log].
        split; [by intros r Hr; apply elem_of_nil in Hr | done].
    + rewrite train_modulo_by_zero by done. cbn [fst snd exit_status]. split.
      * done.
      * eexists. split; [done|]. cbn [log].
        split; [by intros r Hr; apply elem_of_nil in Hr | done].
  - rewrite train_run by done. cbn [fst snd]. split.
    + destruct (_ && _); cbn [exit_status]; [done|].
      destruct (String.eqb _ _); [done|]. by intros code [= <-].
    + eexists. split; [done|]. cbn [log evaluations]. split; [|split].
      * intros r Hr. apply list_elem_of_fmap in Hr as (i & -> & _).
        by apply weights_before_empty.
      * intros _. apply iteration_record_after.
      * done.
Qed.

(** C9, as the code has it.  For every run that gets to the training loop with
    the logging interval resolved to zero and a non-negative iteration count,
    evaluating the logging condition [i % every] is a modulo by zero at the very
    first iteration: the run ends there, after one gradient evaluation and with
    nothing logged.  The settings file ["log-every 0"] leads there. *)
Theorem log_every_zero_is_modulo_by_zero (W : World) (pairs : string)
    (cfg : Settings.t) (err : list Message) :
  reaches_training atof W pairs cfg err ->
  Settings.every cfg = 0 ->
  0 <= Settings.iterations cfg ->
  modulo_by_zero_at_first_iteration (main atof W).
Proof.
  intros Hreach Hev Hpos. rewrite (main_run W pairs cfg err Hreach).
  destruct (read_pairs _ _ _ _) as [x y].
  rewrite train_modulo_by_zero by done.
  split; [done|]. eexists. by split.
Qed.

(** A run with a negative iteration count: the loop body is not executed (no
    gradient, no record, the parameters stay as configured), and the process
    exits with status 0 if it opened an output file; otherwise it ends in
    [fclose(NULL)]. *)
Lemma negative_iterations_run W pairs cfg err :
  reaches_training atof W pairs cfg err ->
  Settings.iterations cfg < 0 ->
  training (main atof W) =
    Some {| weights := {| w := Settings.w cfg; b := Settings.b cfg |};
            log := []; evaluations := 0 |} /\
  status (main atof W) =
    if String.eqb (Settings.output cfg) EmptyString then Undef FcloseNull else Exit 0.
Proof.
  intros Hreach Hneg. rewrite (main_run W pairs cfg err Hreach).
  destruct (read_pairs _ _ _ _) as [x y].
  rewrite train_negative by done. cbn. by destruct (String.eqb _ _).
Qed.

End ProgramProperties.

(** The settings and files of the run on the empty input. *)
Lemma empty_input_world_reaches_training :
  reaches_training atof_decimal empty_input_world EmptyString
    {| Settings.w := Double.zero;
       Settings.b := Double.zero;
       Settings.alpha := Settings.alpha Settings.defaults;
       Settings.iterations := 1;
       Settings.every := 1;
       Settings.output := "out.txt" |} [].
Proof.
  split; [|split; [|split]].
  - simpl. lia.
  - reflexivity.
  - vm_compute. reflexivity.
  - right. reflexivity.
Defined.

(** The run on the empty input file: two records, both of NaNs. *)
Lemma empty_input_is_trained_on_witness :
  Forall (fun m => exists key, m = UnknownKey key)
    (errors (main atof_decimal empty_input_world)) /\
  (forall code, status (main atof_decimal empty_input_world) = Exit code -> code = 0) /\
  exists t, training (main atof_decimal empty_input_world) = Some t /\
    (forall r, r ∈ log t -> shown r = {| w := Double.nan; b := Double.nan |}) /\
    (1 <> 0 -> map iteration (log t) = [0; 1]) /\
    (1 <> 0 -> evaluations t = 2%nat).
Proof.
  apply (empty_input_is_trained_on atof_decimal empty_input_world EmptyString
           _ [] empty_input_world_reaches_training).
  reflexivity.
Defined.

(** C3, as the specification states it, fails: a run on an empty input file (two
    iterations, logged to [out.txt]) reports nothing, writes two progress
    records and exits with status 0. *)
Lemma empty_input_is_not_reported :
  input_records 0 EmptyString = [] /\
  fopen_r empty_input_world "in.txt" = Some EmptyString /\
  status (main atof_decimal empty_input_world) = Exit 0 /\
  errors (main atof_decimal empty_input_world) = [] /\
  length (records (main atof_decimal empty_input_world)) = 2%nat /\
  ~ degenerate_input_reported (main atof_decimal empty_input_world).
Proof.
  repeat split; try reflexivity.
  intros (Herr & _). by apply Herr.
Qed.

(** The settings and files of the run with the logging interval zero. *)
Lemma log_every_0_world_reaches_training :
  reaches_training atof_decimal log_every_0_world (text ["1 2"; "2 3"; "3 4"])
    {| Settings.w := Double.zero;
       Settings.b := Double.zero;
       Settings.alpha := Settings.alpha Settings.defaults;
       Settings.iterations := 100000;
       Settings.every := 0;
       Settings.output := EmptyString |} [].
Proof.
  split; [|split; [|split]].
  - simpl. lia.
  - reflexivity.
  - vm_compute. reflexivity.
  - left. reflexivity.
Defined.

(** The settings file ["log-every 0"] leads to the modulo by zero. *)
Lemma log_every_zero_is_modulo_by_zero_witness :
  modulo_by_zero_at_first_iteration (main atof_decimal log_every_0_world).
Proof.
  apply (log_every_zero_is_modulo_by_zero atof_decimal log_every_0_world
           _ _ [] log_every_0_world_reaches_training).
  - reflexivity.
  - simpl. lia.
Defined.

(** C9, as the specification states it, fails: the settings ["log-every 0"],
    ["iterations -1"], ["output out.txt"] resolve the logging interval to zero,
    yet the run evaluates no logging condition: the loop body is never entered
    and the process exits with status 0. *)
Lemma log_every_zero_without_modulo :
  (exists cfg err,
     load_settings atof_decimal log_every_0_no_iteration_world = Some (cfg, err) /\
     Settings.every cfg = 0) /\
  status (main atof_decimal log_every_0_no_iteration_world) = Exit 0 /\
  ~ modulo_by_zero_at_first_iteration
      (main atof_decimal log_every_0_no_iteration_world).
Proof.
  split; [|split].
  - eexists _, _. split; [by vm_compute | done].
  - by vm_compute.
  - intros [Hst _]. vm_compute in Hst. discriminate Hst.
Qed.

(** C10, at a failing input: with the settings ["iterations -1"] and no output
    file the loop body is not executed (no gradient, no record, the parameters
    keep their initial values), but the process does not get to [return 0]: it
    calls [fclose] on a null pointer. *)
Theorem negative_iterations_reach_fclose_null :
  main atof_decimal negative_iterations_world =
  {| status := Undef FcloseNull;
     errors := [];
     output_file := None;
     training :=
       Some {| weights := {| w := Double.zero; b := Double.zero |};
               log := [];
               evaluations := 0 |} |}.
Proof. by vm_compute. Qed.

(** ** Further runs *)

(** The 257th element makes the vector grow, from 256 cells to 512. *)
Example vec_grows :
  let l := map Z.of_nat (seq 0 300) in
  capacity (vec_of_list (take 256 l)) = 256%nat /\
  capacity (vec_of_list (take 257 l)) = 512%nat /\
  vec_elems (vec_of_list l) = l.
Proof. by vm_compute. Qed.

(** Reading stops at the malformed record ["3 x"]: the [3] is scanned but not
    stored, and the record after it is not read. *)
Example ingestion_stops_at_malformed_record :
  let f := text ["1 2"; "3 x"; "5 6"] in
  let '(x, y) := read_pairs (String.length f) f new_intvec new_intvec in
  vec_elems x = [1] /\ vec_elems y = [2].
Proof. by vm_compute. Qed.

(** Records need not be lines: the integers are paired as they come. *)
Example ingestion_pairs_across_lines :
  input_records 20 (text ["1"; "2 3"; "4"]) = [(1, 2); (3, 4)].
Proof. by vm_compute. Qed.

(** The last occurrence of a key wins, and an unknown key only warns. *)
Example settings_last_occurrence_wins :
  let f := text ["iterations 5"; "foo 1"; "iterations 7"] in
  read_settings atof_decimal (String.length f) f (Settings.defaults, []) =
  ({| Settings.w := Double.zero;
      Settings.b := Double.zero;
      Settings.alpha := Settings.alpha Settings.defaults;
      Settings.iterations := 7;
      Settings.every := 100;
      Settings.output := EmptyString |},
   [UnknownKey "foo"]).
Proof. by vm_compute. Qed.

(** The default learning rate is the double that [atof] reads from
    ["0.00001"]. *)
Example default_alpha : Settings.alpha Settings.defaults = atof_decimal "0.00001".
Proof. by vm_compute. Qed.

(** * Further properties *)

(** ** The vector, again *)

Lemma ints_Forall (l : list Z) :
  forallb (fun z => (INT_MIN <=? z) && (z <=? INT_MAX)) l = true -> Forall is_int l.
Proof.
  intros Hl. apply Forall_forall. intros z Hz.
  rewrite forallb_forall in Hl. apply list_elem_of_In, Hl in Hz.
  unfold is_int. lia.
Qed.

(** X1.  Appending to a well-formed vector keeps it well formed, stores the
    element at index [size], leaves the elements already held as they are,
    whether or not the block is reallocated, and doubles the capacity exactly
    when the vector is full. *)
Theorem vec_append_stores (vec : IntVec) (a : Z) :
  vec_wf vec -> is_int a ->
  vec_wf (vec_append vec a) /\
  size (vec_append vec a) = S (size vec) /\
  vec_get (vec_append vec a) (size vec) = a /\
  (forall i : nat, (i < size vec)%nat ->
     vec_get (vec_append vec a) i = vec_get vec i) /\
  capacity (vec_append vec a) =
    (if (capacity vec <=? size vec)%nat then capacity vec * 2 else capacity vec)%nat.
Proof.
  intros Hwf Ha.
  pose proof (vec_append_elems vec a Hwf) as Hel.
  pose proof (vec_elems_length vec Hwf) as Hlen.
  split; [by apply vec_append_wf|]. split; [apply vec_append_size|].
  split; [|split].
  - rewrite vec_get_elems by (rewrite vec_append_size; lia).
    rewrite Hel, lookup_total_app_r by lia.
    by rewrite Hlen, Nat.sub_diag.
  - intros i Hi.
    rewrite !vec_get_elems by (rewrite ?vec_append_size; lia).
    by rewrite Hel, lookup_total_app_l by lia.
  - unfold vec_append. by destruct (capacity vec <=? size vec)%nat.
Qed.

(** Appending to a vector that is full: the 257th element. *)
Lemma vec_append_stores_witness :
  vec_wf (vec_append full_vec 9) /\
  size (vec_append full_vec 9) = S (size full_vec) /\
  vec_get (vec_append full_vec 9) (size full_vec) = 9 /\
  (forall i : nat, (i < size full_vec)%nat ->
     vec_get (vec_append full_vec 9) i = vec_get full_vec i) /\
  capacity (vec_append full_vec 9) = 512%nat.
Proof.
  apply (vec_append_stores full_vec 9).
  - apply (ints_wf (replicate 256 7)). reflexivity.
  - unfold is_int, INT_MIN, INT_MAX. lia.
Defined.

Lemma vec_of_list_snoc l a : vec_of_list (l ++ [a]) = vec_append (vec_of_list l) a.
Proof. unfold vec_of_list. by rewrite foldl_snoc. Qed.

(** X2.  A vector filled by appending to a new one holds as many elements as
    were appended, and its capacity is the initial 256 cells doubled some number
    of times: never less than the size, and less than twice the size once it
    has grown. *)
Theorem vec_capacity_doubles (l : list Z) :
  size (vec_of_list l) = length l /\
  (exists k : nat, capacity (vec_of_list l) = (INIT_SIZE * 2 ^ k)%nat) /\
  (size (vec_of_list l) <= capacity (vec_of_list l))%nat /\
  (capacity (vec_of_list l) = INIT_SIZE \/
   (capacity (vec_of_list l) < 2 * size (vec_of_list l))%nat).
Proof.
  induction l as [|a l (Hsz & (k & Hk) & Hle & Hcap)] using rev_ind.
  - split; [done|]. split.
    + exists 0%nat. cbn [Nat.pow]. unfold vec_of_list.
      cbn [foldl capacity new_intvec]. lia.
    + split; [|by left]. unfold vec_of_list.
      cbn [foldl size capacity new_intvec]. lia.
  - rewrite vec_of_list_snoc, length_app, Nat.add_1_r.
    set (v := vec_of_list l) in *.
    assert (size (vec_append v a) = S (size v)) as HS by apply vec_append_size.
    assert (capacity (vec_append v a) =
            if (capacity v <=? size v)%nat then capacity v * 2 else capacity v)%nat
      as HC.
    { unfold vec_append. by destruct (capacity v <=? size v)%nat. }
    assert (0 < capacity v)%nat as Hpos.
    { rewrite Hk. pose proof (Nat.pow_nonzero 2 k). unfold INIT_SIZE. lia. }
    rewrite HS, HC. split; [lia|].
    destruct (Nat.leb_spec (capacity v) (size v)) as [Hfull|Hroom].
    + split; [|split; [lia | right; lia]].
      exists (S k). rewrite Hk, Nat.pow_succ_r'. lia.
    + split; [by exists k|]. split; [lia|].
      destruct Hcap as [?|?]; [by left | right; lia].
Qed.

(** X3.  Reading index [i] of the vector to which the integers of [l] were
    appended, in order, yields [l[i]], however often the block was
    reallocated on the way. *)
Theorem vec_of_list_get (l : list Z) (i : nat) :
  Forall is_int l -> (i < length l)%nat ->
  vec_get (vec_of_list l) i = l !!! i.
Proof.
  intros Hl Hi. destruct (vec_of_list_spec l Hl) as [Hwf Hel].
  rewrite vec_get_elems, Hel; [done|].
  by rewrite <- (vec_elems_length _ Hwf), Hel.
Qed.

(** The last of 600 elements, after two reallocations. *)
Lemma vec_of_list_get_witness :
  vec_get (vec_of_list (map Z.of_nat (seq 0 600))) 599 = 599.
Proof.
  apply (vec_of_list_get (map Z.of_nat (seq 0 600)) 599).
  - apply ints_Forall. reflexivity.
  - rewrite length_map, length_seq. lia.
Defined.

(** ** The gradient, again *)

(** X4.  [gradient] depends on the two vectors only through the series they
    hold: the cells of the blocks beyond [size], and the capacities, have no
    effect on the result. *)
Theorem gradient_reads_elements_only (x y x' y' : IntVec) (ws : Weights) :
  vec_wf x -> vec_wf y -> vec_wf x' -> vec_wf y' ->
  size x = size y ->
  vec_elems x' = vec_elems x -> vec_elems y' = vec_elems y ->
  gradient x' y' ws = gradient x y ws.
Proof.
  intros Hx Hy Hx' Hy' Hsz Hex Hey.
  assert (size x' = size x) as Hsx.
  { by rewrite <- (vec_elems_length x' Hx'), Hex, (vec_elems_length x Hx). }
  assert (size y' = size y) as Hsy.
  { by rewrite <- (vec_elems_length y' Hy'), Hey, (vec_elems_length y Hy). }
  unfold gradient.
  rewrite (gradient_loop x y ws Hx Hy Hsz).
  rewrite (gradient_loop x' y' ws Hx' Hy') by lia.
  by rewrite Hex, Hey, Hsx.
Qed.

Lemma padded_x_wf : vec_wf padded_x.
Proof.
  split; [simpl; lia | simpl; lia | reflexivity |].
  apply ints_Forall. reflexivity.
Qed.

(** The series [1, 2, 3] in a block of five cells and in one of 256. *)
Lemma gradient_reads_elements_only_witness :
  gradient padded_x line_y line_weights = gradient line_x line_y line_weights.
Proof.
  apply gradient_reads_elements_only.
  - apply (ints_wf [1; 2; 3]). reflexivity.
  - apply (ints_wf [2; 3; 4]). reflexivity.
  - apply padded_x_wf.
  - apply (ints_wf [2; 3; 4]). reflexivity.
  - reflexivity.
  - reflexivity.
  - reflexivity.
Defined.

(** ** The training loop, again *)

Lemma sub_zero_r d : Double.sub d Double.zero = d.
Proof. by destruct d as [[]|[]| |]. Qed.

Lemma mul_zero_r_positive alpha :
  alpha = Double.zero \/ (exists m e, alpha = S754_finite false m e) ->
  Double.mul alpha Double.zero = Double.zero.
Proof. by intros [-> | (m & e & ->)]. Qed.

Lemma weights_before_stationary x y cfg k :
  gradient x y {| w := Settings.w cfg; b := Settings.b cfg |} =
    {| w := Double.zero; b := Double.zero |} ->
  Settings.alpha cfg = Double.zero \/
    (exists m e, Settings.alpha cfg = S754_finite false m e) ->
  weights_before x y cfg k = {| w := Settings.w cfg; b := Settings.b cfg |}.
Proof.
  intros Hgrad Halpha. induction k as [|k IH]; [done|].
  rewrite weights_before_S, IH, Hgrad. unfold update. cbn [w b].
  by rewrite mul_zero_r_positive, !sub_zero_r.
Qed.

(** X5.  When the gradient at the initial parameters is exactly [(0.0, 0.0)]
    and the learning rate is a finite double that is not negative, training
    does not move: every progress record, and the final state, shows the
    initial parameters. *)
Theorem stationary_point_is_kept (x y : IntVec) (cfg : Settings.t) :
  gradient x y {| w := Settings.w cfg; b := Settings.b cfg |} =
    {| w := Double.zero; b := Double.zero |} ->
  Settings.alpha cfg = Double.zero \/
    (exists m e, Settings.alpha cfg = S754_finite false m e) ->
  Settings.every cfg <> 0 ->
  Settings.iterations cfg <= INT_MAX ->
  weights (train x y cfg).2 = {| w := Settings.w cfg; b := Settings.b cfg |} /\
  forall r, r ∈ log (train x y cfg).2 ->
    shown r = {| w := Settings.w cfg; b := Settings.b cfg |}.
Proof.
  intros Hgrad Halpha Hev HN. rewrite train_run by done. cbn [snd weights log].
  split; [by apply weights_before_stationary|].
  intros r Hr. apply list_elem_of_fmap in Hr as (i & -> & _).
  by apply weights_before_stationary.
Qed.

(** Training on the samples of the line [y = x + 1] from [w = 1], [b = 1]. *)
Lemma stationary_point_is_kept_witness :
  weights (train line_x line_y from_the_line).2 = line_weights /\
  forall r, r ∈ log (train line_x line_y from_the_line).2 -> shown r = line_weights.
Proof.
  apply (stationary_point_is_kept line_x line_y from_the_line).
  - vm_compute. reflexivity.
  - right. vm_compute. eexists _, _. reflexivity.
  - simpl. lia.
  - simpl. unfold INT_MAX. lia.
Defined.

Lemma add_nan_r d : Double.add d Double.nan = Double.nan.
Proof. by destruct d. Qed.

Lemma gradient_body_nan x y ws acc i :
  w ws = Double.nan \/ b ws = Double.nan ->
  gradient_body x y ws acc i = (Double.nan, Double.nan).
Proof.
  intros Hws. unfold gradient_body.
  assert (Double.add (Double.mul (w ws) (Double.of_Z (vec_get x i))) (b ws)
          = Double.nan) as ->.
  { destruct Hws as [-> | ->]; [done | apply add_nan_r]. }
  cbn. by rewrite !add_nan_r.
Qed.

(** The gradient at parameters one of which is a NaN is a pair of NaNs. *)
Lemma gradient_nan x y ws :
  w ws = Double.nan \/ b ws = Double.nan ->
  gradient x y ws = {| w := Double.nan; b := Double.nan |}.
Proof.
  intros Hws. unfold gradient. destruct (size x) as [|n] eqn:Hn; [done|].
  rewrite seq_S, foldl_snoc, gradient_body_nan by done. done.
Qed.

Lemma weights_before_nan_from x y cfg k j :
  w (weights_before x y cfg k) = Double.nan \/
    b (weights_before x y cfg k) = Double.nan ->
  weights_before x y cfg (S (k + j)) = {| w := Double.nan; b := Double.nan |}.
Proof.
  intros Hnan. induction j as [|j IH].
  - rewrite Nat.add_0_r, weights_before_S. by rewrite gradient_nan, update_nan.
  - rewrite Nat.add_succ_r, weights_before_S, IH, gradient_nan by (by left).
    apply update_nan.
Qed.

(** X6.  Parameters that are not a number never recover: if [w] or [b] is a
    NaN before the update of iteration [k], every progress record from
    iteration [k] on shows both [w] and [b] as NaN. *)
Theorem nan_is_absorbing (x y : IntVec) (cfg : Settings.t) (k : nat) :
  w (weights_before x y cfg k) = Double.nan \/
    b (weights_before x y cfg k) = Double.nan ->
  Settings.every cfg <> 0 ->
  Settings.iterations cfg <= INT_MAX ->
  forall r, r ∈ log (train x y cfg).2 -> Z.of_nat k <= iteration r ->
    shown r = {| w := Double.nan; b := Double.nan |}.
Proof.
  intros Hnan Hev HN r. rewrite train_run by done. cbn [snd log].
  intros Hr Hk. apply list_elem_of_fmap in Hr as (i & -> & _).
  unfold record_after in *. cbn [iteration shown] in *.
  replace (Z.to_nat i) with (k + (Z.to_nat i - k))%nat by lia.
  by apply weights_before_nan_from.
Qed.

(** Training from a weight that is a NaN. *)
Lemma nan_is_absorbing_witness :
  shown (record_after line_x line_y from_nan 0) =
  {| w := Double.nan; b := Double.nan |}.
Proof.
  apply (nan_is_absorbing line_x line_y from_nan 0).
  - left. reflexivity.
  - simpl. lia.
  - simpl. unfold INT_MAX. lia.
  - vm_compute. constructor.
  - simpl. lia.
Defined.

(** X7.  The iteration count is inclusive: with [0 <= iterations < INT_MAX]
    (and a non-zero logging interval) the loop ends at its test after
    [iterations + 1] evaluations of the gradient, each followed by an update,
    so that the final parameters are the initial ones after [iterations + 1]
    updates. *)
Theorem train_updates_inclusive (x y : IntVec) (cfg : Settings.t) :
  Settings.every cfg <> 0 ->
  0 <= Settings.iterations cfg < INT_MAX ->
  (train x y cfg).1 = LoopDone /\
  evaluations (train x y cfg).2 = Z.to_nat (Settings.iterations cfg + 1) /\
  weights (train x y cfg).2 =
    weights_before x y cfg (Z.to_nat (Settings.iterations cfg + 1)).
Proof.
  intros Hev HN. rewrite train_run by (done || lia). cbn.
  split; [|done].
  replace (Settings.iterations cfg =? INT_MAX) with false; [by rewrite andb_false_r|].
  symmetry. apply Z.eqb_neq. lia.
Qed.

(** [iterations = 3]: four updates. *)
Lemma train_updates_inclusive_witness :
  (train line_x line_y four_steps).1 = LoopDone /\
  evaluations (train line_x line_y four_steps).2 = 4%nat /\
  weights (train line_x line_y four_steps).2 =
    weights_before line_x line_y four_steps 4.
Proof.
  apply (train_updates_inclusive line_x line_y four_steps).
  - simpl. lia.
  - simpl. unfold INT_MAX. lia.
Defined.

(** The multiples of [e] below [n] are [0, |e|, 2|e|, ...], [ceil (n / |e|)] of
    them; C's [i % e] vanishes on them whatever the sign of [e]. *)
Lemma filter_multiples (e : Z) (n : nat) :
  e <> 0 ->
  List.filter (fun i => Z.rem i e =? 0) (seqZ 0 (Z.of_nat n)) =
  map (fun k => k * Z.abs e) (seqZ 0 ((Z.of_nat n + Z.abs e - 1) / Z.abs e)).
Proof.
  intros He. set (a := Z.abs e). assert (0 < a) as Ha by (subst a; lia).
  induction n as [|n IH].
  - cbn [Z.of_nat seqZ]. rewrite Z.div_small by lia. done.
  - rewrite seqZ_S, List.filter_app, IH. cbn [List.filter]. rewrite Z.add_0_l.
    assert (Z.rem (Z.of_nat n) e = Z.of_nat n mod a) as Hrem.
    { rewrite <- (Z.rem_abs_r _ e) by done. apply Z.rem_mod_nonneg; lia. }
    rewrite Hrem.
    pose proof (Z.div_mod (Z.of_nat n) a ltac:(lia)) as Hdm.
    pose proof (Z.mod_pos_bound (Z.of_nat n) a Ha) as Hb.
    set (q := Z.of_nat n / a) in *. set (r := Z.of_nat n mod a) in *.
    destruct (Z.eqb_spec r 0) as [Hr|Hr].
    + assert ((Z.of_nat n + a - 1) / a = q) as ->.
      { symmetry. apply (Z.div_unique _ _ _ (a - 1)); lia. }
      assert ((Z.of_nat (S n) + a - 1) / a = q + 1) as ->.
      { symmetry. apply (Z.div_unique _ _ _ 0); lia. }
      assert (0 <= q) as Hq by (subst q; apply Z.div_pos; lia).
      rewrite (seqZ_app 0 q 1) by lia. rewrite map_app.
      rewrite (seqZ_cons (0 + q) 1) by lia.
      rewrite (seqZ_nil (Z.succ (0 + q)) (Z.pred 1)) by lia. cbn [map].
      do 2 f_equal. lia.
    + assert ((Z.of_nat n + a - 1) / a = q + 1) as ->.
      { symmetry. apply (Z.div_unique _ _ _ (r - 1)); lia. }
      assert ((Z.of_nat (S n) + a - 1) / a = q + 1) as ->.
      { symmetry. apply (Z.div_unique _ _ _ r); lia. }
      by rewrite app_nil_r.
Qed.

(** X8.  With a logging interval [every] other than zero and
    [0 <= iterations < INT_MAX], the loop ends at its test and the iterations
    logged are [0, e, 2e, ...] up to [iterations], where [e = |every|]:
    [iterations / e + 1] records. *)
Theorem log_every_logs_multiples (x y : IntVec) (cfg : Settings.t) :
  Settings.every cfg <> 0 ->
  0 <= Settings.iterations cfg < INT_MAX ->
  let e := Z.abs (Settings.every cfg) in
  emits_exactly (train x y cfg)
    (map (fun k => k * e) (seqZ 0 (Settings.iterations cfg / e + 1))) /\
  length (log (train x y cfg).2) = Z.to_nat (Settings.iterations cfg / e + 1).
Proof.
  intros Hev HN e. unfold emits_exactly.
  rewrite train_run by (done || lia). cbn [fst snd log].
  rewrite length_map, iteration_record_after.
  replace (Settings.iterations cfg =? INT_MAX) with false by lia.
  rewrite andb_false_r.
  assert (logged_iterations cfg =
          map (fun k => k * e) (seqZ 0 (Settings.iterations cfg / e + 1))) as ->.
  { unfold logged_iterations.
    replace (Settings.iterations cfg + 1)
      with (Z.of_nat (Z.to_nat (Settings.iterations cfg + 1))) by lia.
    rewrite filter_multiples by done. fold e. do 2 f_equal.
    rewrite Z2Nat.id by lia.
    replace (Settings.iterations cfg + 1 + e - 1)
      with (Settings.iterations cfg + 1 * e) by lia.
    rewrite Z.div_add by (subst e; lia). done. }
  split; [done|]. rewrite length_map, length_seqZ. done.
Qed.

(** [iterations = 5], [log-every = 2]: the records of iterations 0, 2 and 4. *)
Lemma log_every_logs_multiples_witness :
  emits_exactly (train line_x line_y every_other_step) [0; 2; 4] /\
  length (log (train line_x line_y every_other_step).2) = 3%nat.
Proof.
  apply (log_every_logs_multiples line_x line_y every_other_step).
  - simpl. lia.
  - simpl. unfold INT_MAX. lia.
Defined.

(** ** The exit paths of the program *)

Section ExitPaths.

Variable atof : string -> double.

Lemma exit_status_not_1 e o : exit_status e o <> Exit 1.
Proof. by destruct e, o. Qed.

(** X9.  [main] returns 1 exactly when the run does not get to the training
    loop: the argument count is not 2 or 3, or the input file, the settings
    file or the output file does not open.  It has then trained nothing and
    holds no output file, and the last thing written to the error stream is
    the usage text or a [perror] message. *)
Theorem main_exits_1_before_training (W : World) :
  (status (main atof W) = Exit 1 <->
   ~ exists pairs cfg err, reaches_training atof W pairs cfg err) /\
  (status (main atof W) = Exit 1 ->
   training (main atof W) = None /\
   output_file (main atof W) = None /\
   exists m, last (errors (main atof W)) = Some m /\
     (m = Usage (argv W !!! 0%nat) \/ exists what, m = Perror what)).
Proof.
  assert ((exists pairs cfg err, reaches_training atof W pairs cfg err) ->
          status (main atof W) <> Exit 1) as Hreach.
  { intros (pairs & cfg & err & Hr). rewrite (main_run atof W pairs cfg err Hr).
    destruct (read_pairs _ _ _ _). apply exit_status_not_1. }
  assert ((exists pairs cfg err, reaches_training atof W pairs cfg err) \/
          (status (main atof W) = Exit 1 /\
           training (main atof W) = None /\
           output_file (main atof W) = None /\
           exists m, last (errors (main atof W)) = Some m /\
             (m = Usage (argv W !!! 0%nat) \/ exists what, m = Perror what)))
    as [Hr | Hfail].
  { unfold main, reaches_training.
    destruct (Nat.ltb_spec (length (argv W)) 2) as [Hlt|Hge]; cbn [orb].
    { right. cbn. eauto 10. }
    destruct (Nat.ltb_spec 3 (length (argv W))) as [Hgt|Hle].
    { right. cbn. eauto 10. }
    destruct (fopen_r W (argv W !!! 1%nat)) as [pairs|]; [|right; cbn; eauto 10].
    destruct (read_pairs _ _ _ _) as [x y].
    destruct (load_settings atof W) as [[cfg err]|]; [|right; cbn; eauto 10].
    destruct (String.eqb_spec (Settings.output cfg) EmptyString) as [Hout|Hout];
      cbn [negb andb].
    { left. exists pairs, cfg, err. repeat split; [lia|lia|by left]. }
    destruct (fopen_w W (Settings.output cfg)) eqn:Hw; cbn [negb].
    { left. exists pairs, cfg, err. repeat split; [lia|lia|by right]. }
    right. cbn. rewrite last_snoc. eauto 10. }
  - split; [|by intros H; destruct (Hreach Hr H)].
    split; [by intros H; destruct (Hreach Hr H) | by intros H; destruct (H Hr)].
  - destruct Hfail as (Hst & Hrest). split; [|done].
    split; [|done]. intros _ Hr. by apply (Hreach Hr).
Qed.

(** X10.  A run that gets to the training loop with no output file named
    writes its records to [stdout] and never returns from [main]: whatever the
    loop does, no exit status is produced, since after the loop [fclose] is
    called on a null pointer. *)
Theorem stdout_run_never_exits (W : World) (pairs : string)
    (cfg : Settings.t) (err : list Message) :
  reaches_training atof W pairs cfg err ->
  Settings.output cfg = EmptyString ->
  output_file (main atof W) = None /\
  forall code, status (main atof W) <> Exit code.
Proof.
  intros Hr Hout. rewrite (main_run atof W pairs cfg err Hr).
  destruct (read_pairs _ _ _ _) as [x y]. rewrite Hout.
  destruct (train x y cfg) as [e st]. cbn.
  split; [done|]. intros code. by destruct e.
Qed.

(** X11.  A run that gets to the training loop with an output file named, a
    non-zero logging interval and an iteration count other than [INT_MAX]
    returns 0, has written its records to that file, and has put nothing on
    the error stream but the warnings of the settings. *)
Theorem file_run_exits_0 (W : World) (pairs : string)
    (cfg : Settings.t) (err : list Message) :
  reaches_training atof W pairs cfg err ->
  Settings.output cfg <> EmptyString ->
  Settings.every cfg <> 0 ->
  Settings.iterations cfg <> INT_MAX ->
  status (main atof W) = Exit 0 /\
  output_file (main atof W) = Some (Settings.output cfg) /\
  errors (main atof W) = err.
Proof.
  intros Hr Hout Hev Hmax. rewrite (main_run atof W pairs cfg err Hr).
  destruct Hr as (_ & _ & Hset & _).
  apply load_settings_inv in Hset as [[_ HN] _].
  destruct (read_pairs _ _ _ _) as [x y].
  rewrite train_run by done.
  destruct (String.eqb_spec (Settings.output cfg) EmptyString); [done|].
  cbn. replace (Settings.iterations cfg =? INT_MAX) with false.
  - by rewrite andb_false_r.
  - symmetry. by apply Z.eqb_neq.
Qed.

(** X12.  With [iterations] set to [INT_MAX] (and a non-zero logging
    interval) the loop test [i <= iterations] never fails: after the iteration
    [INT_MAX], whose record is written like the others, [i++] overflows. *)
Theorem int_max_iterations_overflow (W : World) (pairs : string)
    (cfg : Settings.t) (err : list Message) :
  reaches_training atof W pairs cfg err ->
  Settings.iterations cfg = INT_MAX ->
  Settings.every cfg <> 0 ->
  status (main atof W) = Undef SignedOverflow /\
  map iteration (records (main atof W)) = logged_iterations cfg.
Proof.
  intros Hr Hmax Hev. rewrite (main_run atof W pairs cfg err Hr).
  destruct (read_pairs _ _ _ _) as [x y].
  rewrite train_run by (done || lia). unfold records. cbn.
  rewrite Hmax. cbn. split; [done|]. apply iteration_record_after.
Qed.

End ExitPaths.

(** The settings and files of the run that logs to [stdout]. *)
Lemma stdout_world_reaches_training :
  reaches_training atof_decimal stdout_world (text ["1 2"; "2 3"; "3 4"])
    {| Settings.w := Double.zero;
       Settings.b := Double.zero;
       Settings.alpha := Settings.alpha Settings.defaults;
       Settings.iterations := 1;
       Settings.every := 1;
       Settings.output := EmptyString |} [].
Proof.
  split; [|split; [|split]].
  - simpl. lia.
  - reflexivity.
  - vm_compute. reflexivity.
  - left. reflexivity.
Defined.

(** The settings and files of the run that logs to [out.txt]. *)
Lemma file_world_reaches_training :
  reaches_training atof_decimal file_world (text ["1 2"; "2 3"; "3 4"])
    {| Settings.w := Double.zero;
       Settings.b := Double.zero;
       Settings.alpha := Settings.alpha Settings.defaults;
       Settings.iterations := 1;
       Settings.every := 1;
       Settings.output := "out.txt" |} [].
Proof.
  split; [|split; [|split]].
  - simpl. lia.
  - reflexivity.
  - vm_compute. reflexivity.
  - right. reflexivity.
Defined.

(** The settings and files of the run with the largest iteration count. *)
Lemma int_max_world_reaches_training :
  reaches_training atof_decimal int_max_world (text ["1 2"; "2 3"; "3 4"])
    int_max_settings [].
Proof.
  split; [|split; [|split]].
  - simpl. lia.
  - reflexivity.
  - vm_compute. reflexivity.
  - left. reflexivity.
Defined.

(** The run that logs to [stdout]. *)
Lemma stdout_run_never_exits_witness :
  output_file (main atof_decimal stdout_world) = None /\
  forall code, status (main atof_decimal stdout_world) <> Exit code.
Proof.
  apply (stdout_run_never_exits atof_decimal stdout_world _ _ []
           stdout_world_reaches_training).
  reflexivity.
Defined.

(** The run that logs to [out.txt]. *)
Lemma file_run_exits_0_witness :
  status (main atof_decimal file_world) = Exit 0 /\
  output_file (main atof_decimal file_world) = Some "out.txt" /\
  errors (main atof_decimal file_world) = [].
Proof.
  apply (file_run_exits_0 atof_decimal file_world _ _ []
           file_world_reaches_training).
  - simpl. discriminate.
  - simpl. lia.
  - simpl. unfold INT_MAX. lia.
Defined.

(** The run with [iterations 2147483647]. *)
Lemma int_max_iterations_overflow_witness :
  status (main atof_decimal int_max_world) = Undef SignedOverflow /\
  map iteration (records (main atof_decimal int_max_world)) =
  logged_iterations int_max_settings.
Proof.
  apply (int_max_iterations_overflow atof_decimal int_max_world
           (text ["1 2"; "2 3"; "3 4"]) int_max_settings []
           int_max_world_reaches_training).
  - reflexivity.
  - simpl. lia.
Defined.

(** ** Reading the settings, again *)

Lemma length_append (s t : string) :
  String.length (String.append s t) = (String.length s + String.length t)%nat.
Proof.
  induction s as [|c s IH]; [done|].
  change (String.append (String c s) t) with (String c (String.append s t)).
  cbn [String.length]. by rewrite IH.
Qed.

Lemma scan_chars_word width s rest :
  is_word s = true -> (String.length s <= width)%nat ->
  String.length s = width \/ at_break rest = true ->
  scan_chars width (String.append s rest) = (s, rest).
Proof.
  revert width. induction s as [|c s IH]; intros width Hw Hlen Hend.
  - change (String.append EmptyString rest) with rest.
    destruct width as [|width]; [by destruct rest|].
    destruct Hend as [Hend|Hend]; [done|].
    destruct rest as [|c t]; [done|].
    rewrite scan_chars_S. cbn [at_break] in Hend. by rewrite Hend.
  - change (String.append (String c s) rest) with (String c (String.append s rest)).
    cbn [String.length] in Hlen, Hend. cbn [is_word] in Hw.
    destruct width as [|width]; [lia|].
    apply andb_prop in Hw as [Hc Hs]. unfold word_char in Hc.
    apply andb_prop in Hc as [Hsp _]. apply negb_true_iff in Hsp.
    rewrite scan_chars_S, Hsp, IH; [done|done|lia|].
    destruct Hend; [left; lia | by right].
Qed.

Lemma skip_space_word s rest :
  is_word s = true -> (1 <= String.length s)%nat ->
  skip_space (String.append s rest) = String.append s rest.
Proof.
  destruct s as [|c s]; [cbn [String.length]; lia|]. intros Hw _.
  change (String.append (String c s) rest) with (String c (String.append s rest)).
  cbn [is_word] in Hw. apply andb_prop in Hw as [Hc _]. unfold word_char in Hc.
  apply andb_prop in Hc as [Hsp _]. apply negb_true_iff in Hsp.
  cbn [skip_space]. by rewrite Hsp.
Qed.

Lemma scan_word_word width s rest :
  is_word s = true -> (1 <= String.length s <= S width)%nat ->
  String.length s = S width \/ at_break rest = true ->
  scan_word (S width) (String.append s rest) = Some (s, rest).
Proof.
  intros Hw Hlen Hend. unfold scan_word.
  rewrite skip_space_word by (done || lia).
  pose proof (scan_chars_word (S width) s rest Hw ltac:(lia) Hend) as Hscan.
  destruct s as [|c s]; [cbn [String.length] in Hlen; lia|].
  change (String.append (String c s) rest)
    with (String c (String.append s rest)) in *.
  cbv iota. by rewrite Hscan.
Qed.

Lemma c_str_word s : is_word s = true -> c_str s = s.
Proof.
  induction s as [|c s IH]; [done|]. cbn [is_word c_str]. intros Hw.
  apply andb_prop in Hw as [Hc Hs]. unfold word_char in Hc.
  apply andb_prop in Hc as [_ Hz]. apply negb_true_iff in Hz.
  by rewrite Hz, IH.
Qed.

(** X14.  A word of more than ten characters is not one key: [fscanf] reads
    its first ten characters as the key and the characters that follow (up to a
    hundred, up to the next white space) as the value. *)
Theorem long_word_is_split (key value rest : string) :
  is_word key = true -> String.length key = 10%nat ->
  is_word value = true -> (1 <= String.length value <= 100)%nat ->
  String.length value = 100%nat \/ at_break rest = true ->
  fscanf_s_s (String.append key (String.append value rest)) =
  Some (key, value, rest).
Proof.
  intros Hk Hlk Hv Hlv Hend. unfold fscanf_s_s.
  rewrite (scan_word_word 9) by (done || lia || (left; done)).
  rewrite skip_space_word by (done || lia).
  rewrite (scan_word_word 99) by (done || lia).
  by rewrite !c_str_word.
Qed.

Lemma fscanf_s_s_skip c f : isspace c = true -> fscanf_s_s (String c f) = fscanf_s_s f.
Proof.
  intros Hc. unfold fscanf_s_s, scan_word. cbn [skip_space]. by rewrite Hc.
Qed.

Lemma settings_records_skip fuel c f :
  isspace c = true -> settings_records fuel (String c f) = settings_records fuel f.
Proof.
  intros Hc. destruct fuel as [|fuel]; [done|]. cbn [settings_records].
  by rewrite fscanf_s_s_skip.
Qed.

Lemma fscanf_s_s_line key value rest :
  fits (key, value) ->
  fscanf_s_s (String.append key (String " " (String.append value (String.append newline rest))))
  = Some (key, value, String.append newline rest).
Proof.
  intros (Hk & Hlk & Hv & Hlv). cbn [fst snd] in *. unfold fscanf_s_s.
  rewrite (scan_word_word 9) by (done || lia || (right; done)).
  cbn [skip_space]. change (isspace " ") with true. cbv iota.
  rewrite skip_space_word by (done || lia).
  rewrite (scan_word_word 99) by (done || lia || (right; done)).
  by rewrite !c_str_word.
Qed.

Lemma settings_records_text kvs fuel :
  Forall fits kvs ->
  (String.length (settings_text kvs) <= fuel)%nat ->
  settings_records fuel (settings_text kvs) = kvs.
Proof.
  intros Hfit. revert fuel.
  induction Hfit as [|[key value] kvs Hkv _ IH]; intros fuel Hfuel.
  - by destruct fuel.
  - cbn [settings_text] in *.
    rewrite !length_append in Hfuel. cbn [String.length] in Hfuel.
    rewrite !length_append in Hfuel.
    destruct fuel as [|fuel]; [destruct Hkv as (_ & ? & _); cbn in *; lia|].
    cbn [settings_records]. rewrite fscanf_s_s_line by done.
    change (String.append newline (settings_text kvs))
      with (String (ascii_of_nat 10) (settings_text kvs)).
    rewrite settings_records_skip by done. rewrite IH; [done|].
    destruct Hkv as (_ & ? & _). cbn in *. lia.
Qed.

(** X15.  A settings file with one line ["key value"] per record, each key of
    1 to 10 and each value of 1 to 100 word characters, is read to its end: the
    records are the lines, in order, and the settings are those that the chain
    of [strcmp]s makes of them. *)
Theorem settings_text_is_read (atof : string -> double) (kvs : list (string * string)) :
  Forall fits kvs ->
  let f := settings_text kvs in
  settings_records (String.length f) f = kvs /\
  read_settings atof (String.length f) f (Settings.defaults, []) =
  foldl (fun st kv => set_option atof kv.1 kv.2 st) (Settings.defaults, []) kvs.
Proof.
  intros Hfit f.
  assert (settings_records (String.length f) f = kvs) as Hrecs.
  { by apply settings_records_text. }
  split; [done|]. by rewrite read_settings_foldl, Hrecs.
Qed.



Lemma scan_chars_bound width s :
  (String.length (scan_chars width s).1 <= width)%nat /\
  forallb (fun c => negb (isspace c)) (list_ascii_of_string (scan_chars width s).1) = true.
Proof.
  revert s. induction width as [|width IH]; intros [|c s];
    try (cbn; split; [lia|done]).
  rewrite scan_chars_S. destruct (isspace c) eqn:Hc; [cbn; split; [lia|done]|].
  specialize (IH s). destruct (scan_chars width s) as [tok rest].
  cbn [fst String.length list_ascii_of_string forallb] in *. rewrite Hc.
  destruct IH as [? ->]. split; [lia|done].
Qed.

Lemma c_str_bound s :
  forallb (fun c => negb (isspace c)) (list_ascii_of_string s) = true ->
  (String.length (c_str s) <= String.length s)%nat /\ is_word (c_str s) = true.
Proof.
  induction s as [|c s IH]; [done|].
  cbn [list_ascii_of_string forallb c_str String.length]. intros Hs.
  apply andb_prop in Hs as [Hc Hs]. destruct (IH Hs) as [Hlen Hw].
  destruct (Ascii.eqb c zero) eqn:Hz; cbn [String.length is_word]; [split; [lia|done]|].
  unfold word_char. rewrite Hc, Hz, Hw. split; [lia|done].
Qed.

(** X13.  Whatever the settings stream holds, a successful [fscanf] leaves a
    key of at most 10 and a value of at most 100 characters, with no white
    space in them: [key[11]] and [value[101]] are not overrun, and copying the
    value to [output] does not cut it. *)
Theorem fscanf_s_s_fits_buffers (f key value f' : string) :
  fscanf_s_s f = Some (key, value, f') ->
  (String.length key <= 10)%nat /\ (String.length value <= 100)%nat /\
  is_word key = true /\ is_word value = true /\
  strncpy 100 value = value.
Proof.
  unfold fscanf_s_s, scan_word. intros H.
  destruct (skip_space f) as [|c t]; [done|].
  pose proof (scan_chars_bound 10 (String c t)) as [Hk1 Hk2].
  destruct (scan_chars 10 (String c t)) as [k f1].
  destruct (skip_space (skip_space f1)) as [|c' t']; [done|].
  pose proof (scan_chars_bound 100 (String c' t')) as [Hv1 Hv2].
  destruct (scan_chars 100 (String c' t')) as [v f2].
  cbn [fst] in *. inversion H; subst.
  destruct (c_str_bound k Hk2) as [? ?]. destruct (c_str_bound v Hv2) as [? ?].
  repeat split; [lia|lia|done|done|].
  assert (String.length (c_str v) <= 100)%nat as Hlen by lia.
  clear -Hlen. generalize dependent 100%nat. generalize (c_str v).
  intros s. induction s as [|c s IH]; intros n Hn; [by destruct n|].
  destruct n as [|n]; [cbn in Hn; lia|]. cbn in *. rewrite IH; [done|lia].
Qed.

Lemma filter_Permutation_bool {A} (p : A -> bool) (l l' : list A) :
  l ≡ₚ l' -> List.filter p l ≡ₚ List.filter p l'.
Proof.
  induction 1 as [|a l l' _ IH|a c l|l1 l2 l3 _ IH1 _ IH2]; cbn.
  - done.
  - destruct (p a); [by constructor | done].
  - destruct (p a), (p c); try done. apply perm_swap.
  - by etrans.
Qed.

Lemma filter_key_NoDup key (recs : list (string * string)) :
  NoDup recs.*1 ->
  (length (List.filter (fun kv : string * string => String.eqb kv.1 key) recs) <= 1)%nat.
Proof.
  induction recs as [|[k v] recs IH]; cbn [fmap list_fmap List.filter fst]; [cbn; lia|].
  intros Hnd. apply NoDup_cons in Hnd as [Hk Hnd].
  destruct (String.eqb_spec k key) as [->|]; [|by apply IH].
  cbn [length].
  assert (List.filter (fun kv : string * string => String.eqb kv.1 key) recs = [])
    as ->; [|cbn; lia].
  clear -Hk. induction recs as [|[k v] recs IH]; [done|].
  cbn [List.filter fst]. apply not_elem_of_cons in Hk as [Hne Hk].
  destruct (String.eqb_spec k key) as [->|]; [done | by apply IH].
Qed.

Lemma last_value_Permutation key (recs recs' : list (string * string)) :
  recs ≡ₚ recs' -> NoDup recs.*1 -> last_value key recs = last_value key recs'.
Proof.
  intros Hperm Hnd. unfold last_value.
  pose proof (filter_key_NoDup key recs Hnd) as Hlen.
  pose proof (filter_Permutation_bool
                (fun kv : string * string => String.eqb kv.1 key) _ _ Hperm) as Hf.
  destruct (List.filter _ recs) as [|kv [|kv' l]] eqn:Hl; [| |cbn in Hlen; lia].
  - apply Permutation_nil_l in Hf. by rewrite <- Hf.
  - apply Permutation_singleton_l in Hf. by rewrite <- Hf.
Qed.

Section SettingsOrder.

Variable atof : string -> double.

(** X16.  The order of the settings does not matter: two settings files whose
    records are the same up to their order, no key occurring twice, resolve to
    the same settings. *)
Theorem settings_order_is_irrelevant (f f' : string) :
  settings_records (String.length f) f ≡ₚ settings_records (String.length f') f' ->
  NoDup (settings_records (String.length f) f).*1 ->
  (read_settings atof (String.length f) f (Settings.defaults, [])).1 =
  (read_settings atof (String.length f') f' (Settings.defaults, [])).1.
Proof.
  intros Hperm Hnd. rewrite !read_settings_foldl, !foldl_set_option. cbn [fst].
  unfold overlay. by rewrite !(last_value_Permutation _ _ _ Hperm Hnd).
Qed.
End SettingsOrder.

(** ** Reading the sample pairs, again *)

Lemma digit_char_facts d :
  (d < 10)%nat ->
  digit_of (digit_char d) = Some (Z.of_nat d) /\
  isspace (digit_char d) = false /\
  forall t,
    match String (digit_char d) t with
    | String "-"%char t' => (true, t')
    | String "+"%char t' => (false, t')
    | _ => (false, String (digit_char d) t)
    end = (false, String (digit_char d) t).
Proof.
  intros Hd. do 10 (destruct d as [|d]; [by vm_compute|]). lia.
Qed.

Lemma isspace_not_digit c : isspace c = true -> digit_of c = None.
Proof. by destruct c as [[] [] [] [] [] [] [] []]. Qed.

Lemma scan_digits_text ds rest acc :
  Forall (fun d => d < 10)%nat ds -> at_break rest = true ->
  scan_digits (String.append (digits_text ds) rest) acc =
  (foldl (fun a d => 10 * a + Z.of_nat d) acc ds, rest).
Proof.
  intros Hds Hrest. revert acc. induction Hds as [|d ds Hd _ IH]; intros acc.
  - change (String.append (digits_text []) rest) with rest.
    destruct rest as [|c t]; [done|]. cbn [scan_digits].
    by rewrite isspace_not_digit.
  - change (String.append (digits_text (d :: ds)) rest)
      with (String (digit_char d) (String.append (digits_text ds) rest)).
    cbn [scan_digits foldl].
    destruct (digit_char_facts d Hd) as (-> & _). apply IH.
Qed.

Lemma store_int_id z : is_int z -> store_int z = z.
Proof.
  unfold store_int, wrap_int, is_int, INT_MIN, INT_MAX. intros Hz.
  rewrite Z.min_r, Z.max_r by lia. rewrite Z.mod_small; lia.
Qed.

Lemma scan_int_numeral n rest :
  numeral_ok n -> at_break rest = true ->
  scan_int (String.append (numeral_text n) rest) = Some (numeral_value n, rest).
Proof.
  destruct n as [neg ds]. intros (Hne & Hds & Hint) Hrest. cbn [fst snd] in *.
  destruct ds as [|d ds]; [done|]. apply Forall_cons in Hds as [Hd Hds].
  destruct (digit_char_facts d Hd) as (Hdig & Hsp & Hsign).
  unfold numeral_value in *. cbn [fst snd foldl] in *.
  rewrite Z.mul_0_r, Z.add_0_l in *.
  unfold scan_int, numeral_text. cbn [fst snd digits_text]. cbv zeta.
  destruct neg.
  - change (String.append (String "-" (String (digit_char d) (digits_text ds))) rest)
      with (String "-" (String (digit_char d) (String.append (digits_text ds) rest))).
    cbn [skip_space]. change (isspace "-") with false. cbv iota.
    rewrite Hdig, scan_digits_text by done. by rewrite store_int_id.
  - change (String.append (String (digit_char d) (digits_text ds)) rest)
      with (String (digit_char d) (String.append (digits_text ds) rest)).
    cbn [skip_space]. rewrite Hsp, Hsign.
    rewrite Hdig, scan_digits_text by done. by rewrite store_int_id.
Qed.

Lemma numeral_text_length n : numeral_ok n -> (1 <= String.length (numeral_text n))%nat.
Proof.
  destruct n as [neg [|d ds]]; intros (Hne & _); [done|].
  unfold numeral_text. cbn. destruct neg; cbn; lia.
Qed.

Lemma fscanf_d_d_line a b rest :
  numeral_ok a -> numeral_ok b ->
  fscanf_d_d (String.append (numeral_text a)
                (String " " (String.append (numeral_text b) (String.append newline rest))))
  = Some (numeral_value a, numeral_value b, String.append newline rest).
Proof.
  intros Ha Hb. unfold fscanf_d_d.
  rewrite scan_int_numeral by done.
  cbn [skip_space]. change (isspace " ") with true. cbv iota.
  assert (scan_int (skip_space (String.append (numeral_text b) (String.append newline rest)))
          = Some (numeral_value b, String.append newline rest)) as ->; [|done].
  assert (forall s, scan_int (skip_space s) = scan_int s) as ->.
  { intros s. unfold scan_int. cbv zeta.
    assert (skip_space (skip_space s) = skip_space s) as ->; [|done].
    induction s as [|c s IH]; [done|]. cbn [skip_space].
    destruct (isspace c) eqn:Hc; [done|]. cbn [skip_space]. by rewrite Hc. }
  by apply scan_int_numeral.
Qed.

Lemma input_records_skip fuel c f :
  isspace c = true -> input_records fuel (String c f) = input_records fuel f.
Proof.
  intros Hc. destruct fuel as [|fuel]; [done|]. cbn [input_records].
  assert (fscanf_d_d (String c f) = fscanf_d_d f) as ->; [|done].
  unfold fscanf_d_d, scan_int. cbn [skip_space]. by rewrite Hc.
Qed.

Lemma input_records_text ps fuel :
  Forall (fun p : numeral * numeral => numeral_ok p.1 /\ numeral_ok p.2) ps ->
  (String.length (pairs_text ps) <= fuel)%nat ->
  input_records fuel (pairs_text ps) =
  map (fun p : numeral * numeral => (numeral_value p.1, numeral_value p.2)) ps.
Proof.
  intros Hok. revert fuel.
  induction Hok as [|[a b] ps [Ha Hb] _ IH]; intros fuel Hfuel.
  - by destruct fuel.
  - cbn [pairs_text fst snd] in *.
    rewrite !length_append in Hfuel. cbn [String.length] in Hfuel.
    rewrite !length_append in Hfuel.
    pose proof (numeral_text_length a Ha).
    destruct fuel as [|fuel]; [lia|].
    cbn [input_records map fst snd]. rewrite fscanf_d_d_line by done.
    change (String.append newline (pairs_text ps))
      with (String (ascii_of_nat 10) (pairs_text ps)).
    rewrite input_records_skip by done. rewrite IH; [done|].
    cbn in *. lia.
Qed.

(** X17.  An input file with one line ["x y"] per sample, [x] and [y] decimal
    numerals of [int]s (with or without a minus sign), is read to its end: the
    series [x] holds the values of the first numerals and the series [y] those
    of the second ones, in the order of the lines. *)
Theorem pairs_text_is_read (ps : list (numeral * numeral)) :
  Forall (fun p : numeral * numeral => numeral_ok p.1 /\ numeral_ok p.2) ps ->
  let f := pairs_text ps in
  let '(x, y) := read_pairs (String.length f) f new_intvec new_intvec in
  vec_elems x = map (fun p : numeral * numeral => numeral_value p.1) ps /\
  vec_elems y = map (fun p : numeral * numeral => numeral_value p.2) ps /\
  size x = length ps /\ size y = length ps.
Proof.
  intros Hok f.
  pose proof (input_records_text ps (String.length f) Hok ltac:(done)) as Hrecs.
  fold f in Hrecs.
  destruct (read_pairs _ _ _ _) as [x y] eqn:Hread.
  apply read_pairs_invariant in Hread as (Hx & Hy & _ & Hex & Hey);
    [|apply new_intvec_wf..|done].
  change (vec_elems new_intvec) with (@nil Z) in *. cbn [app] in Hex, Hey.
  rewrite Hrecs in Hex, Hey.
  rewrite <- (vec_elems_length x Hx), <- (vec_elems_length y Hy), Hex, Hey.
  rewrite <- !list_fmap_compose, !length_fmap. done.
Qed.

(** ** Runs of the two readers *)

(** The record of the line ["alpha 0.5"]. *)
Lemma fscanf_s_s_fits_buffers_witness :
  (String.length "alpha" <= 10)%nat /\ (String.length "0.5" <= 100)%nat /\
  is_word "alpha" = true /\ is_word "0.5" = true /\
  strncpy 100 "0.5" = "0.5"%string.
Proof.
  apply (fscanf_s_s_fits_buffers "alpha 0.5" "alpha" "0.5" EmptyString).
  reflexivity.
Defined.

(** The word ["iterations-max"] is read as the key ["iterations"] with the
    value ["-max"]. *)
Lemma long_word_is_split_witness :
  fscanf_s_s (String.append "iterations" (String.append "-max" " 5")) =
  Some ("iterations"%string, "-max"%string, " 5"%string).
Proof.
  apply long_word_is_split.
  - reflexivity.
  - reflexivity.
  - reflexivity.
  - simpl. lia.
  - right. reflexivity.
Defined.

(** The settings file of the lines ["alpha 0.5"] and ["iterations 3"]. *)
Lemma settings_text_is_read_witness :
  let kvs := [("alpha", "0.5"); ("iterations", "3")]%string in
  let f := settings_text kvs in
  settings_records (String.length f) f = kvs /\
  read_settings atof_decimal (String.length f) f (Settings.defaults, []) =
  foldl (fun st kv => set_option atof_decimal kv.1 kv.2 st)
    (Settings.defaults, []) kvs.
Proof.
  intros kvs.
  apply (settings_text_is_read atof_decimal kvs).
  repeat first
    [ apply List.Forall_nil
    | apply List.Forall_cons;
      [unfold fits; simpl; repeat split; try reflexivity; lia|] ].
Defined.



(** The lines ["w 1"], ["b 2"] in their two orders. *)
Lemma settings_order_is_irrelevant_witness :
  (read_settings atof_decimal (String.length (text ["w 1"; "b 2"]))
     (text ["w 1"; "b 2"]) (Settings.defaults, [])).1 =
  (read_settings atof_decimal (String.length (text ["b 2"; "w 1"]))
     (text ["b 2"; "w 1"]) (Settings.defaults, [])).1.
Proof.
  apply settings_order_is_irrelevant.
  - vm_compute. apply perm_swap.
  - vm_compute. apply (bool_decide_unpack _). vm_compute. exact I.
Defined.

Lemma numeral_ok_intro (n : numeral) :
  match n.2 with [] => false | _ => true end
  && forallb (fun d => d <? 10)%nat n.2
  && (INT_MIN <=? numeral_value n) && (numeral_value n <=? INT_MAX) = true ->
  numeral_ok n.
Proof.
  intros H. repeat (apply andb_prop in H as [H ?]). split; [|split].
  - by destruct n.2.
  - apply Forall_forall. intros d Hd.
    match goal with Hf : forallb _ _ = true |- _ => rewrite forallb_forall in Hf;
      apply list_elem_of_In, Hf in Hd end.
    by apply Nat.ltb_lt.
  - unfold is_int. lia.
Qed.

(** The input file of the lines ["1 2"] and ["-10 37"]. *)
Lemma pairs_text_is_read_witness :
  let f := pairs_text two_samples in
  let '(x, y) := read_pairs (String.length f) f new_intvec new_intvec in
  vec_elems x = [1; -10] /\ vec_elems y = [2; 37] /\
  size x = 2%nat /\ size y = 2%nat.
Proof.
  apply (pairs_text_is_read two_samples).
  repeat first
    [ apply List.Forall_nil
    | apply List.Forall_cons;
      [split; apply numeral_ok_intro; reflexivity|] ].
Defined.
